(** * ssh2tcp: a shallow embedding of the relay and its two backends

    The development follows the three source files:
    - [tcp.go]     the raw-socket client and server,
    - [ssh.go]     the secure-shell client and server,
    - [ssh2tcp.go] configuration ([initClient], [initServer], [main]) and
                   the relay engine ([doServer], [newServerChannel],
                   [setupRelay]).

    Sequential code is embedded as functions.  Calls into the Go standard
    library and into [golang.org/x/crypto/ssh] take their outcome from an
    explicit environment argument.  The goroutines are embedded as one
    executable step function over a global state, one program counter per
    goroutine, driven by a list of scheduling events. *)

From Stdlib Require Import ZArith Lia.
From stdpp Require Import base option list strings.

Open Scope Z_scope.
Open Scope string_scope.

(** ** Go values shared by the three files *)

(** A Go [error] value that is not nil. *)
Inductive error : Type := Error (msg : string).

(** A call that returns [(v, nil)] or [(zero, err)]. *)
Inductive result (A : Type) : Type :=
| Ok (a : A)
| Err (e : error).
Arguments Ok {A} a.
Arguments Err {A} e.

(** A call that returns normally or panics; a panic that nobody recovers
    terminates the whole process. *)
Inductive exec (A : Type) : Type :=
| Ret (a : A)
| Panics (msg : string).
Arguments Ret {A} a.
Arguments Panics {A} msg.

Definition nil_deref : string :=
  "invalid memory address or nil pointer dereference".

(** ** Package [net] *)
Module net.

(** The dynamic value behind a non-nil [net.Conn]. *)
Inductive ConnImpl : Type :=
| TCPConn (fd : nat)      (* pointer to net.TCPConn *)
| OtherConn (fd : nat).   (* any other implementation of net.Conn *)

(** A [net.Conn] interface value; [None] is the nil interface. *)
Definition Conn : Type := option ConnImpl.

(** [net.Dial]: on failure the connection is nil. *)
Definition Dial (r : result ConnImpl) : Conn * option error :=
  match r with
  | Ok c => (Some c, None)
  | Err e => (None, Some e)
  end.

(** The type assertion of [cc] to a TCPConn pointer in its two-result
    form: no panic, a nil pointer when the assertion fails. *)
Definition as_TCPConn (cc : Conn) : option nat * bool :=
  match cc with
  | Some (TCPConn fd) => (Some fd, true)
  | _ => (None, false)
  end.

(** [cc.RemoteAddr()]: a method call through a nil interface panics. *)
Definition RemoteAddr (cc : Conn) : exec nat :=
  match cc with
  | None => Panics nil_deref
  | Some (TCPConn fd) => Ret fd
  | Some (OtherConn fd) => Ret fd
  end.

Inductive Listener : Type := ListenerOpen | ListenerClosed.

End net.

(** ** Package [net/url] *)
Module url.

Record Userinfo : Type := mkUserinfo {
  username : string;
  password : string;
  passwordSet : bool
}.

Record URL : Type := mkURL {
  Scheme : string;
  User : option Userinfo;   (* pointer to Userinfo, None is nil *)
  Host : string
}.

(** Both accessors accept a nil receiver. *)
Definition Username (u : option Userinfo) : string :=
  match u with
  | None => ""
  | Some i => username i
  end.

Definition Password (u : option Userinfo) : string * bool :=
  match u with
  | None => ("", false)
  | Some i => (password i, passwordSet i)
  end.

End url.

(** ** Package [golang.org/x/crypto/ssh], as far as the program uses it *)
Module ssh.

Inductive AuthMethod : Type :=
| Password (secret : string)
| PublicKeys (keys : list nat).

(** [func(hostname, remote, key) error]; nil accepts the key. *)
Definition HostKeyCallback : Type := string -> nat -> option error.

(** Accepts every host key. *)
Definition InsecureIgnoreHostKey : HostKeyCallback := fun _ _ => None.

(** Accepts one key only. *)
Definition FixedHostKey (k : nat) : HostKeyCallback :=
  fun _ key => if Nat.eqb key k then None else Some (Error "ssh: host key mismatch").

Record ClientConfig : Type := mkClientConfig {
  User : string;
  Auth : list AuthMethod;
  HostKey : HostKeyCallback
}.

(** [PasswordCallback] returns the error; nil lets the client in. *)
Record ServerConfig : Type := mkServerConfig {
  PasswordCallback : string -> string -> option error;
  hostKeys : list nat
}.

Definition AddHostKey (k : nat) (cfg : ServerConfig) : ServerConfig :=
  {| PasswordCallback := PasswordCallback cfg; hostKeys := hostKeys cfg ++ [k] |}.

End ssh.

(** ** The [DataChannel] interface and the values that implement it *)

(** [SshClientDataChannel] of ssh.go; [None] is a nil field. *)
Record SshClientDataChannel : Type := mkSshClientDataChannel {
  sess : option nat;
  rdc : option nat;
  wrc : option nat
}.

Inductive DataChannel : Type :=
| DcTCPConn (p : option nat)                 (* pointer to net.TCPConn, possibly nil *)
| DcSshChannel (id : nat)                    (* ssh.Channel, inbound on the ssh server *)
| DcSshClient (dc : SshClientDataChannel).   (* outbound on the ssh client *)

(** What travels through [dcs], a channel of [interface{}]. *)
Inductive Any : Type :=
| AnyConn (c : net.ConnImpl)
| AnySshChannel (id : nat).

(** [dc.(DataChannel)]: a TCPConn pointer and an [ssh.Channel] have the four
    methods, another [net.Conn] lacks [CloseWrite]. *)
Definition as_DataChannel (dc : Any) : option DataChannel :=
  match dc with
  | AnyConn (net.TCPConn fd) => Some (DcTCPConn (Some fd))
  | AnyConn (net.OtherConn _) => None
  | AnySshChannel id => Some (DcSshChannel id)
  end.

(** ** tcp.go *)

(** The field [conn] of [TcpClient] is never assigned: it stays the zero
    [net.TCPConn] and is left out. *)
Record TcpClient : Type := mkTcpClient {
  tc_addr : string
}.

Record TcpServer : Type := mkTcpServer {
  ts_lnr : option net.Listener;
  ts_addr : string
}.

(** [TcpClient.Connect]; [dial] is what [net.Dial] answers.  Both branches
    of the [if] evaluate [cc.RemoteAddr()] for the log line. *)
Definition TcpClient_Connect (dial : result net.ConnImpl) (c : TcpClient)
  : exec (result DataChannel) :=
  let '(cc, err) := net.Dial dial in
  let '(ctcp, _) := net.as_TCPConn cc in
  match err with
  | Some e =>
      match net.RemoteAddr cc with
      | Panics m => Panics m
      | Ret _ => Ret (Err e)
      end
  | None =>
      match net.RemoteAddr cc with
      | Panics m => Panics m
      | Ret _ => Ret (Ok (DcTCPConn ctcp))
      end
  end.

(** ** ssh.go *)

Record SshClient : Type := mkSshClient {
  est : bool;
  dc : SshClientDataChannel;
  sc_addr : string;
  cfg : ssh.ClientConfig
}.

Record SshServer : Type := mkSshServer {
  ss_lnr : option net.Listener;
  ss_addr : string;
  ss_cfg : ssh.ServerConfig
}.

(** The answers of the ssh library during one [Connect]. *)
Record SshConnectEnv : Type := mkSshConnectEnv {
  ssh_Dial : result nat;
  NewSession : result nat;
  StdoutPipe : result nat;
  StdinPipe : result nat;
  Shell : option error
}.

Definition set_est (b : bool) (c : SshClient) : SshClient :=
  {| est := b; dc := dc c; sc_addr := sc_addr c; cfg := cfg c |}.

Definition set_dc (d : SshClientDataChannel) (c : SshClient) : SshClient :=
  {| est := est c; dc := d; sc_addr := sc_addr c; cfg := cfg c |}.

Definition ptr_of {A : Type} (r : result A) : option A :=
  match r with
  | Ok a => Some a
  | Err _ => None
  end.

(** [SshClient.Connect]: the receiver is updated in place, so the new
    receiver is returned next to the result. *)
Definition SshClient_Connect (env : SshConnectEnv) (c : SshClient)
  : SshClient * result DataChannel :=
  let c := set_est false c in
  match ssh_Dial env with
  | Err e => (c, Err e)
  | Ok _ =>
      let c := set_dc {| sess := ptr_of (NewSession env);
                         rdc := rdc (dc c); wrc := wrc (dc c) |} c in
      match NewSession env with
      | Err e => (c, Err e)
      | Ok _ =>
          let c := set_est true c in
          let c := set_dc {| sess := sess (dc c);
                             rdc := ptr_of (StdoutPipe env); wrc := wrc (dc c) |} c in
          match StdoutPipe env with
          | Err e => (c, Err e)
          | Ok _ =>
              let c := set_dc {| sess := sess (dc c); rdc := rdc (dc c);
                                 wrc := ptr_of (StdinPipe env) |} c in
              match StdinPipe env with
              | Err e => (c, Err e)
              | Ok _ =>
                  let err := Shell env in
                  (c, Ok (DcSshClient (dc c)))
              end
          end
      end
  end.

(** [DataChannel.Close]: the ssh client channel closes its session, and a
    nil session is dereferenced; a TCPConn pointer checks its receiver and an
    [ssh.Channel] is always live. *)
Definition DataChannel_Close (d : DataChannel) : exec unit :=
  match d with
  | DcSshClient c =>
      match sess c with
      | None => Panics nil_deref
      | Some _ => Ret tt
      end
  | DcTCPConn _ => Ret tt
  | DcSshChannel _ => Ret tt
  end.

(** ** The [Client] and [Server] interfaces of ssh2tcp.go *)

Inductive Client : Type :=
| ClTcp (c : TcpClient)
| ClSsh (c : SshClient).

Inductive Server : Type :=
| SvTcp (s : TcpServer)
| SvSsh (s : SshServer).

(** What the outside world answers during one [Client.Connect]. *)
Record ConnectEnv : Type := mkConnectEnv {
  tcp_Dial : result net.ConnImpl;
  ssh_env : SshConnectEnv
}.

Definition Client_Connect (env : ConnectEnv) (c : Client)
  : exec (Client * result DataChannel) :=
  match c with
  | ClTcp tc =>
      match TcpClient_Connect (tcp_Dial env) tc with
      | Panics m => Panics m
      | Ret r => Ret (ClTcp tc, r)
      end
  | ClSsh sc =>
      let '(sc', r) := SshClient_Connect (ssh_env env) sc in
      Ret (ClSsh sc', r)
  end.

(** [Client.Close]: the new receiver and the data channel it closed, if
    any.  [TcpClient.Close] closes the zero [conn] field, which only
    returns an error.  [SshClient.Close] closes [c.dc] when [est] is set. *)
Definition Client_Close (c : Client) : Client * option DataChannel :=
  match c with
  | ClTcp tc => (ClTcp tc, None)
  | ClSsh sc =>
      if est sc then (ClSsh (set_est false sc), Some (DcSshClient (dc sc)))
      else (ClSsh sc, None)
  end.

Definition Server_lnr (s : Server) : option net.Listener :=
  match s with
  | SvTcp t => ts_lnr t
  | SvSsh t => ss_lnr t
  end.

Definition Server_set_lnr (l : option net.Listener) (s : Server) : Server :=
  match s with
  | SvTcp t => SvTcp {| ts_lnr := l; ts_addr := ts_addr t |}
  | SvSsh t => SvSsh {| ss_lnr := l; ss_addr := ss_addr t; ss_cfg := ss_cfg t |}
  end.

(** [Listen] of both servers: store what [net.Listen] returned, return its
    error. *)
Definition Server_Listen (r : option error) (s : Server) : Server * option error :=
  match r with
  | None => (Server_set_lnr (Some net.ListenerOpen) s, None)
  | Some e => (Server_set_lnr None s, Some e)
  end.

(** [Close] of both servers: [s.lnr.Close()], through a nil interface when
    [Listen] did not succeed. *)
Definition Server_Close (s : Server) : exec Server :=
  match Server_lnr s with
  | None => Panics nil_deref
  | Some _ => Ret (Server_set_lnr (Some net.ListenerClosed) s)
  end.

(** ** [initClient] *)

Definition initClient (u : url.URL) (ca : string) : result Client :=
  if String.eqb (url.Scheme u) "tcp" then
    Ok (ClTcp {| tc_addr := url.Host u |})
  else if String.eqb (url.Scheme u) "ssh" then
    let '(addr, sshUser) :=
      if negb (String.eqb ca "")
      then (ca ++ ":22", url.Username (url.User u) ++ "@" ++ url.Host u)
      else (url.Host u, url.Username (url.User u)) in
    let '(sshPass, ok) := url.Password (url.User u) in
    let sshPass := if negb ok then "12345678" else sshPass in
    Ok (ClSsh {| est := false;
                 dc := {| sess := None; rdc := None; wrc := None |};
                 sc_addr := addr;
                 cfg := {| ssh.User := sshUser;
                           ssh.Auth := [ssh.Password sshPass];
                           ssh.HostKey := ssh.InsecureIgnoreHostKey |} |})
  else Err (Error "Invalid scheme").

(** ** [initServer] *)
Section InitServer.

(** [ioutil.ReadFile] and [ssh.ParsePrivateKey]. *)
Variable ReadFile : string -> result string.
Variable ParsePrivateKey : string -> result nat.

Definition initServer (u : url.URL) (hostkey : string) : result Server :=
  if String.eqb (url.Scheme u) "tcp" then
    Ok (SvTcp {| ts_lnr := None; ts_addr := url.Host u |})
  else if String.eqb (url.Scheme u) "ssh" then
    let cfg := {| ssh.PasswordCallback := fun _ _ => None; ssh.hostKeys := [] |} in
    match ReadFile hostkey with
    | Ok privKey =>
        match ParsePrivateKey privKey with
        | Err e => Err e
        | Ok priv =>
            Ok (SvSsh {| ss_lnr := None; ss_addr := url.Host u;
                         ss_cfg := ssh.AddHostKey priv cfg |})
        end
    | Err e => Err e
    end
  else Err (Error "Invalid scheme").

End InitServer.

(** ** The relay engine: goroutines as a transition system *)

(** Program counters, one type per goroutine body. *)

(** [main], after the two [go] statements. *)
Inductive MainPc : Type :=
| MSignal        (* in the signal loop *)
| MClientClose   (* done is closed, before client.Close() *)
| MServerClose   (* before server.Close() *)
| MWait          (* in wg.Wait() *)
| MExited.

(** [doServer]. *)
Inductive ServerPc : Type :=
| SListen            (* before s.Listen() *)
| SAccept            (* inside s.Accept(dcs), in lnr.Accept() *)
| SSend (dc : Any)   (* inside TcpServer.Accept, blocked in the send on dcs *)
| SSelect            (* Accept returned nil, at the select on done *)
| SReturned.

(** The goroutine that [SshServer.Accept] starts per connection. *)
Inductive ConnPc : Type :=
| CRange             (* waiting in the range over chans *)
| CSend (dc : Any)   (* blocked in the send on dcs *)
| CStuck             (* chans is nil: the handshake failed *)
| CReturned.

(** [newServerChannel]. *)
Inductive DispPc : Type :=
| DSelect            (* at the select *)
| DGot (dc : Any)    (* received dc, before the type assertion *)
| DReturned.

(** [setupRelay]. *)
Inductive RelayPc : Type :=
| RConnect           (* before c.Connect() returns *)
| RSelect            (* in the final select on done *)
| RReturned.

(** The two anonymous goroutines of [setupRelay]. *)
Inductive CopyPc : Type :=
| CpNone             (* not started *)
| CpCopy             (* inside io.Copy *)
| CpOnce             (* io.Copy returned, before once.Do(closer) *)
| CpReturned.

Inductive Dir : Type := S2C | C2S.

(** One call of [setupRelay] with its local variables; [fired] counts the
    executions of [closer] and is not a variable of the program. *)
Record Session : Type := mkSession {
  sdc : DataChannel;
  cdc : option DataChannel;
  sup : RelayPc;
  s2c : CopyPc;
  c2s : CopyPc;
  once : bool;
  fired : nat
}.

(** The whole process.  [closed] lists the data channels on which [Close]
    was called, latest first.  Once [panicked] is set the process is gone
    and the other fields mean nothing. *)
Record State : Type := mkState {
  done : bool;
  wg : Z;
  panicked : option string;
  mainpc : MainPc;
  client : Client;
  server : Server;
  srvpc : ServerPc;
  conns : list ConnPc;
  disppc : DispPc;
  sessions : list Session;
  closed : list DataChannel
}.

Definition set_done (v : bool) (st : State) : State :=
  mkState v (wg st) (panicked st) (mainpc st) (client st) (server st)
          (srvpc st) (conns st) (disppc st) (sessions st) (closed st).
Definition set_wg (v : Z) (st : State) : State :=
  mkState (done st) v (panicked st) (mainpc st) (client st) (server st)
          (srvpc st) (conns st) (disppc st) (sessions st) (closed st).
Definition set_panicked (v : option string) (st : State) : State :=
  mkState (done st) (wg st) v (mainpc st) (client st) (server st)
          (srvpc st) (conns st) (disppc st) (sessions st) (closed st).
Definition set_mainpc (v : MainPc) (st : State) : State :=
  mkState (done st) (wg st) (panicked st) v (client st) (server st)
          (srvpc st) (conns st) (disppc st) (sessions st) (closed st).
Definition set_client (v : Client) (st : State) : State :=
  mkState (done st) (wg st) (panicked st) (mainpc st) v (server st)
          (srvpc st) (conns st) (disppc st) (sessions st) (closed st).
Definition set_server (v : Server) (st : State) : State :=
  mkState (done st) (wg st) (panicked st) (mainpc st) (client st) v
          (srvpc st) (conns st) (disppc st) (sessions st) (closed st).
Definition set_srvpc (v : ServerPc) (st : State) : State :=
  mkState (done st) (wg st) (panicked st) (mainpc st) (client st) (server st)
          v (conns st) (disppc st) (sessions st) (closed st).
Definition set_conns (v : list ConnPc) (st : State) : State :=
  mkState (done st) (wg st) (panicked st) (mainpc st) (client st) (server st)
          (srvpc st) v (disppc st) (sessions st) (closed st).
Definition set_disppc (v : DispPc) (st : State) : State :=
  mkState (done st) (wg st) (panicked st) (mainpc st) (client st) (server st)
          (srvpc st) (conns st) v (sessions st) (closed st).
Definition set_sessions (v : list Session) (st : State) : State :=
  mkState (done st) (wg st) (panicked st) (mainpc st) (client st) (server st)
          (srvpc st) (conns st) (disppc st) v (closed st).
Definition set_closed (v : list DataChannel) (st : State) : State :=
  mkState (done st) (wg st) (panicked st) (mainpc st) (client st) (server st)
          (srvpc st) (conns st) (disppc st) (sessions st) v.

Definition set_sup (v : RelayPc) (s : Session) : Session :=
  mkSession (sdc s) (cdc s) v (s2c s) (c2s s) (once s) (fired s).
Definition set_once_fired (s : Session) : Session :=
  mkSession (sdc s) (cdc s) (sup s) (s2c s) (c2s s) true (S (fired s)).
Definition copypc (d : Dir) (s : Session) : CopyPc :=
  match d with
  | S2C => s2c s
  | C2S => c2s s
  end.
Definition set_copypc (d : Dir) (v : CopyPc) (s : Session) : Session :=
  match d with
  | S2C => mkSession (sdc s) (cdc s) (sup s) v (c2s s) (once s) (fired s)
  | C2S => mkSession (sdc s) (cdc s) (sup s) (s2c s) v (once s) (fired s)
  end.

(** [setupRelay] has just been called on [sdc]. *)
Definition new_session (sdc : DataChannel) : Session :=
  mkSession sdc None RConnect CpNone CpNone false 0.

(** After [wg.Add(2)] and the two [go] statements. *)
Definition start_splice (cdc : DataChannel) (s : Session) : Session :=
  mkSession (sdc s) (Some cdc) RSelect CpCopy CpCopy (once s) (fired s).

Definition upd_session (i : nat) (s : Session) (st : State) : State :=
  set_sessions (<[i:=s]> (sessions st)) st.

(** *** Primitives *)

(** The first panic wins. *)
Definition panic (m : string) (st : State) : State :=
  match panicked st with
  | Some _ => st
  | None => set_panicked (Some m) st
  end.

(** [sync.WaitGroup.Add]. *)
Definition wg_Add (delta : Z) (st : State) : State :=
  if (wg st + delta <? 0)%Z
  then panic "sync: negative WaitGroup counter" st
  else set_wg (wg st + delta) st.

Definition wg_Done (st : State) : State := wg_Add (-1) st.

(** [d.Close()]. *)
Definition close_dc (d : DataChannel) (st : State) : State :=
  match DataChannel_Close d with
  | Panics m => panic m st
  | Ret _ => set_closed (d :: closed st) st
  end.

(** The closure [closer] of session [s]: [cdc.Close()], then [sdc.Close()]. *)
Definition closer (s : Session) (st : State) : State :=
  match cdc s with
  | None => panic nil_deref st
  | Some c => close_dc (sdc s) (close_dc c st)
  end.

(** [once.Do(closer)] in session [i]: [sync.Once] runs its argument on the
    first call only. *)
Definition once_Do_closer (i : nat) (st : State) : State :=
  match sessions st !! i with
  | None => st
  | Some s =>
      if once s then st
      else closer s (upd_session i (set_once_fired s) st)
  end.

(** *** Events: which goroutine moves, and what the outside world answers *)

(** The answers during one [Server.Accept]. *)
Record AcceptEnv : Type := mkAcceptEnv {
  lnr_Accept : result net.ConnImpl;
  NewServerConn : result unit
}.

Inductive MainEv : Type :=
| Signal         (* a signal arrives; quit is set; close(done) *)
| ClientClose    (* client.Close() *)
| ServerClose    (* server.Close() *)
| WaitReturns.   (* wg.Wait() returns *)

Inductive ServerEv : Type :=
| Listen (r : option error)   (* s.Listen(), with the error of net.Listen *)
| Accept (env : AcceptEnv)    (* lnr.Accept() returns inside s.Accept(dcs) *)
| Select.                     (* the select with the default case *)

Inductive ConnEv : Type :=
| NewChannel (r : result nat)   (* a channel arrives; newChannel.Accept() *)
| ChansClosed.                  (* the range ends *)

Inductive Sender : Type :=
| FromServer          (* the send inside TcpServer.Accept *)
| FromConn (j : nat). (* the send of connection goroutine j *)

Inductive DispEv : Type :=
| Recv (from : Sender)   (* the select takes the case on dcs *)
| Done                   (* the select takes the case on done *)
| Spawn.                 (* type assertion, wg.Add(1), go setupRelay *)

Inductive RelayEv : Type :=
| Connect (env : ConnectEnv)   (* c.Connect() returns, up to the two go statements *)
| CopyEnds (d : Dir)           (* io.Copy returns *)
| CopyOnce (d : Dir)           (* once.Do(closer) and the deferred wg.Done() *)
| ShutdownSeen.                (* the select takes the case on done *)

Inductive Event : Type :=
| EvMain (e : MainEv)
| EvServer (e : ServerEv)
| EvConn (j : nat) (e : ConnEv)
| EvDisp (e : DispEv)
| EvRelay (i : nat) (e : RelayEv).

(** *** [main] from the signal loop on *)
Definition main_step (e : MainEv) (st : State) : option State :=
  match e, mainpc st with
  | Signal, MSignal =>
      Some (set_mainpc MClientClose (set_done true st))
  | ClientClose, MClientClose =>
      let '(c, d) := Client_Close (client st) in
      let st := set_mainpc MServerClose (set_client c st) in
      Some (match d with
            | Some d => close_dc d st
            | None => st
            end)
  | ServerClose, MServerClose =>
      Some (match Server_Close (server st) with
            | Panics m => panic m st
            | Ret s => set_mainpc MWait (set_server s st)
            end)
  | WaitReturns, MWait =>
      if (wg st =? 0)%Z then Some (set_mainpc MExited st) else None
  | _, _ => None
  end.

(** *** [Server.Accept] once [lnr.Accept()] has returned *)
Inductive AcceptStep : Type :=
| AcceptReturns (err : option error) (spawned : option ConnPc)
| AcceptSends (dc : Any).

(** [TcpServer.Accept]: send the connection on [dcs], then return nil. *)
Definition TcpServer_Accept (env : AcceptEnv) : AcceptStep :=
  match lnr_Accept env with
  | Ok dc => AcceptSends (AnyConn dc)
  | Err e => AcceptReturns (Some e) None
  end.

(** [SshServer.Accept]: the error of [ssh.NewServerConn] is not looked at;
    the goroutine over [chans] is started and nil is returned. *)
Definition SshServer_Accept (env : AcceptEnv) : AcceptStep :=
  match lnr_Accept env with
  | Err e => AcceptReturns (Some e) None
  | Ok _ =>
      AcceptReturns None
        (Some (match NewServerConn env with
               | Ok _ => CRange
               | Err _ => CStuck
               end))
  end.

Definition Server_Accept (s : Server) (env : AcceptEnv) : AcceptStep :=
  match s with
  | SvTcp _ => TcpServer_Accept env
  | SvSsh _ => SshServer_Accept env
  end.

(** *** [doServer] *)
Definition doServer_step (e : ServerEv) (st : State) : option State :=
  match e, srvpc st with
  | Listen r, SListen =>
      let '(s, err) := Server_Listen r (server st) in
      let st := set_server s st in
      Some (match err with
            | Some _ => wg_Done (set_srvpc SReturned st)
            | None => set_srvpc SAccept st
            end)
  | Accept env, SAccept =>
      match Server_lnr (server st) with
      | None => Some (panic nil_deref st)
      | Some _ =>
          match Server_Accept (server st) env with
          | AcceptSends dc => Some (set_srvpc (SSend dc) st)
          | AcceptReturns (Some _) _ => Some (wg_Done (set_srvpc SReturned st))
          | AcceptReturns None g =>
              Some (set_srvpc SSelect
                      (set_conns (conns st ++ option_list g) st))
          end
      end
  | Select, SSelect =>
      Some (if done st then wg_Done (set_srvpc SReturned st)
            else set_srvpc SAccept st)
  | _, _ => None
  end.

(** *** The per-connection goroutine of [SshServer.Accept] *)
Definition conn_step (j : nat) (e : ConnEv) (st : State) : option State :=
  match conns st !! j with
  | Some CRange =>
      match e with
      | NewChannel (Ok id) =>
          Some (set_conns (<[j:=CSend (AnySshChannel id)]> (conns st)) st)
      | NewChannel (Err _) => Some st
      | ChansClosed => Some (set_conns (<[j:=CReturned]> (conns st)) st)
      end
  | _ => None
  end.

(** *** [newServerChannel] *)
Definition newServerChannel_step (e : DispEv) (st : State) : option State :=
  match e, disppc st with
  | Recv FromServer, DSelect =>
      match srvpc st with
      | SSend dc => Some (set_disppc (DGot dc) (set_srvpc SSelect st))
      | _ => None
      end
  | Recv (FromConn j), DSelect =>
      match conns st !! j with
      | Some (CSend dc) =>
          Some (set_disppc (DGot dc) (set_conns (<[j:=CRange]> (conns st)) st))
      | _ => None
      end
  | Done, DSelect =>
      if done st then Some (wg_Done (set_disppc DReturned st)) else None
  | Spawn, DGot dc =>
      Some (match as_DataChannel dc with
            | Some sdc =>
                set_disppc DSelect
                  (set_sessions (sessions st ++ [new_session sdc]) (wg_Add 1 st))
            | None => set_disppc DSelect st
            end)
  | _, _ => None
  end.

(** *** [setupRelay] and its two copy goroutines *)

(** [Connect env] is the whole call [c.Connect()] in one step.  The
    statements of [SshClient.Connect], interleaved between the sessions that
    share the client, are [Connect_step] below. *)
Definition setupRelay_step (i : nat) (e : RelayEv) (st : State) : option State :=
  match sessions st !! i with
  | None => None
  | Some s =>
      match e with
      | Connect env =>
          match sup s with
          | RConnect =>
              Some (match Client_Connect env (client st) with
                    | Panics m => panic m st
                    | Ret (c, Err _) =>
                        wg_Done (close_dc (sdc s)
                                   (upd_session i (set_sup RReturned s)
                                      (set_client c st)))
                    | Ret (c, Ok cdc) =>
                        upd_session i (start_splice cdc s)
                          (wg_Add 2 (set_client c st))
                    end)
          | _ => None
          end
      | CopyEnds d =>
          match copypc d s with
          | CpCopy => Some (upd_session i (set_copypc d CpOnce s) st)
          | _ => None
          end
      | CopyOnce d =>
          match copypc d s with
          | CpOnce =>
              Some (wg_Done (once_Do_closer i
                               (upd_session i (set_copypc d CpReturned s) st)))
          | _ => None
          end
      | ShutdownSeen =>
          match sup s with
          | RSelect =>
              if done st
              then Some (wg_Done (once_Do_closer i
                                    (upd_session i (set_sup RReturned s) st)))
              else None
          | _ => None
          end
      end
  end.

(** *** The process *)

(** A process that panicked or whose [main] returned makes no step. *)
Definition alive (st : State) : bool :=
  match panicked st, mainpc st with
  | Some _, _ => false
  | None, MExited => false
  | None, _ => true
  end.

Definition step (ev : Event) (st : State) : option State :=
  if alive st then
    match ev with
    | EvMain e => main_step e st
    | EvServer e => doServer_step e st
    | EvConn j e => conn_step j e st
    | EvDisp e => newServerChannel_step e st
    | EvRelay i e => setupRelay_step i e st
    end
  else None.

Fixpoint run (evs : list Event) (st : State) : option State :=
  match evs with
  | [] => Some st
  | ev :: evs =>
      match step ev st with
      | Some st' => run evs st'
      | None => None
      end
  end.

(** [main] has executed [wg.Add(1); go doServer(...)] and
    [wg.Add(1); go newServerChannel(...)] and enters the signal loop. *)
Definition initial (c : Client) (s : Server) : State :=
  {| done := false; wg := 0 + 1 + 1; panicked := None; mainpc := MSignal;
     client := c; server := s; srvpc := SListen; conns := [];
     disppc := DSelect; sessions := []; closed := [] |}.

Definition reachable (st : State) : Prop :=
  exists c s evs, run evs (initial c s) = Some st.

(** ** [main] up to the signal loop *)

Record Flags : Type := mkFlags {
  listenURL : string;
  connectURL : string;
  caURL : string;
  hostKey : string;
  debug : bool
}.

Section Main.

(** [url.Parse], [ioutil.ReadFile] and [ssh.ParsePrivateKey]. *)
Variable url_Parse : string -> result url.URL.
Variable ReadFile : string -> result string.
Variable ParsePrivateKey : string -> result nat.

Definition main (f : Flags) : exec State :=
  if String.eqb (listenURL f) "" || String.eqb (connectURL f) "" then
    Panics "'listen' or 'connect' has to be specified"
  else
    match url_Parse (listenURL f) with
    | Err _ => Panics "Unable to parse listen URL"
    | Ok listen =>
        match url_Parse (connectURL f) with
        | Err _ => Panics "Unable to parse connect URL"
        | Ok connect =>
            match initClient connect (caURL f) with
            | Err _ => Panics "Unable to create client"
            | Ok client =>
                match initServer ReadFile ParsePrivateKey listen (hostKey f) with
                | Err _ => Panics "Unable to create server"
                | Ok server => Ret (initial client server)
                end
            end
        end
    end.

End Main.

(** ** Vocabulary of the statements *)

(** The three calls of [once.Do(closer)]. *)
Definition trigger (e : RelayEv) : bool :=
  match e with
  | CopyOnce _ => true
  | ShutdownSeen => true
  | Connect _ => false
  | CopyEnds _ => false
  end.

(** What [once.Do(closer)] does to the locals of its session. *)
Definition once_mark (s : Session) : Session :=
  if once s then s else set_once_fired s.

(** How one step can change one session, given the value of [done]. *)
Inductive session_step (dn : bool) : Session -> Session -> Prop :=
| rs_fail s :
    sup s = RConnect -> session_step dn s (set_sup RReturned s)
| rs_splice s c :
    sup s = RConnect -> DataChannel_Close c = Ret tt ->
    session_step dn s (start_splice c s)
| rs_copy_ends d s :
    copypc d s = CpCopy -> session_step dn s (set_copypc d CpOnce s)
| rs_copy_once d s :
    copypc d s = CpOnce ->
    session_step dn s (once_mark (set_copypc d CpReturned s))
| rs_shutdown s :
    sup s = RSelect -> dn = true ->
    session_step dn s (once_mark (set_sup RReturned s)).

(** How one step can change the list of sessions. *)
Inductive sessions_step (dn : bool) (l : list Session) : list Session -> Prop :=
| ss_same : sessions_step dn l l
| ss_spawn d :
    DataChannel_Close d = Ret tt ->
    sessions_step dn l (l ++ [new_session d])
| ss_upd i s s' :
    l !! i = Some s -> session_step dn s s' ->
    sessions_step dn l (<[i:=s']> l).

(** The goroutines that hold a slot of [wg]: each is counted from the
    [wg.Add] before its [go] statement to its deferred [wg.Done]. *)
Definition srv_slot (pc : ServerPc) : Z :=
  match pc with
  | SReturned => 0
  | _ => 1
  end.

Definition disp_slot (pc : DispPc) : Z :=
  match pc with
  | DReturned => 0
  | _ => 1
  end.

Definition relay_slot (pc : RelayPc) : Z :=
  match pc with
  | RReturned => 0
  | _ => 1
  end.

Definition copy_slot (pc : CopyPc) : Z :=
  match pc with
  | CpCopy => 1
  | CpOnce => 1
  | _ => 0
  end.

Definition slots (s : Session) : Z :=
  relay_slot (sup s) + copy_slot (s2c s) + copy_slot (c2s s).

Fixpoint total_slots (l : list Session) : Z :=
  match l with
  | [] => 0
  | s :: l => slots s + total_slots l
  end.

Definition tasks (st : State) : Z :=
  srv_slot (srvpc st) + disp_slot (disppc st) + total_slots (sessions st).

(** A session as [setupRelay] can have it, given the value of [done]. *)
Definition session_ok (dn : bool) (s : Session) : Prop :=
  fired s = (if once s then 1%nat else 0%nat)
  /\ DataChannel_Close (sdc s) = Ret tt
  /\ match cdc s with
     | None =>
         sup s <> RSelect /\ s2c s = CpNone /\ c2s s = CpNone /\ once s = false
     | Some c =>
         DataChannel_Close c = Ret tt /\ sup s <> RConnect
         /\ s2c s <> CpNone /\ c2s s <> CpNone
         /\ (sup s = RReturned -> dn = true)
     end.

(** While [doServer] is inside or past an [Accept], [Listen] has stored a
    listener. *)
Definition lnr_ok (st : State) : Prop :=
  match srvpc st with
  | SListen => True
  | SReturned => True
  | _ => is_Some (Server_lnr (server st))
  end.

(** What holds in every state of every execution. *)
Definition inv (st : State) : Prop :=
  Forall (session_ok (done st)) (sessions st)
  /\ (panicked st = None -> wg st = tasks st)
  /\ lnr_ok st.

Definition is_server_ev (ev : Event) : bool :=
  match ev with
  | EvServer _ => true
  | _ => false
  end.


(** The step that brings [doServer] to its select: an [Accept] that
    returned nil, directly or after its send on [dcs] was received. *)
Definition accept_succeeded (ev : Event) (st : State) : Prop :=
  match ev with
  | EvServer (Accept env) =>
      exists g, Server_Accept (server st) env = AcceptReturns None g
  | EvDisp (Recv FromServer) => exists dc, srvpc st = SSend dc
  | _ => False
  end.

(** Before any send on [dcs] and any session. *)
Definition quiet (st : State) : Prop :=
  conns st = [] /\ sessions st = []
  /\ (disppc st = DSelect \/ disppc st = DReturned).

(** The errors of configuration and of the host key, as [main] can meet
    them. *)
Inductive setup_error
    (url_Parse : string -> result url.URL)
    (ReadFile : string -> result string)
    (ParsePrivateKey : string -> result nat) (f : Flags) : Prop :=
| se_no_listen : listenURL f = "" -> setup_error url_Parse ReadFile ParsePrivateKey f
| se_no_connect : connectURL f = "" -> setup_error url_Parse ReadFile ParsePrivateKey f
| se_listen_url e :
    url_Parse (listenURL f) = Err e ->
    setup_error url_Parse ReadFile ParsePrivateKey f
| se_connect_url e :
    url_Parse (connectURL f) = Err e ->
    setup_error url_Parse ReadFile ParsePrivateKey f
| se_connect_scheme u :
    url_Parse (connectURL f) = Ok u ->
    url.Scheme u <> "tcp" -> url.Scheme u <> "ssh" ->
    setup_error url_Parse ReadFile ParsePrivateKey f
| se_listen_scheme u :
    url_Parse (listenURL f) = Ok u ->
    url.Scheme u <> "tcp" -> url.Scheme u <> "ssh" ->
    setup_error url_Parse ReadFile ParsePrivateKey f
| se_key_unreadable u e :
    url_Parse (listenURL f) = Ok u -> url.Scheme u = "ssh" ->
    ReadFile (hostKey f) = Err e ->
    setup_error url_Parse ReadFile ParsePrivateKey f
| se_key_unparseable u pem e :
    url_Parse (listenURL f) = Ok u -> url.Scheme u = "ssh" ->
    ReadFile (hostKey f) = Ok pem -> ParsePrivateKey pem = Err e ->
    setup_error url_Parse ReadFile ParsePrivateKey f.

Definition with_Shell (e : option error) (env : SshConnectEnv) : SshConnectEnv :=
  {| ssh_Dial := ssh_Dial env; NewSession := NewSession env;
     StdoutPipe := StdoutPipe env; StdinPipe := StdinPipe env; Shell := e |}.

(** ** Concrete inputs *)
Module Ex.

Definition flags : Flags :=
  {| listenURL := "tcp://127.0.0.1:1234"; connectURL := "ssh://joe@10.0.0.2:22";
     caURL := ""; hostKey := ""; debug := false |}.

Definition listen : url.URL :=
  {| url.Scheme := "tcp"; url.User := None; url.Host := "127.0.0.1:1234" |}.

Definition connect : url.URL :=
  {| url.Scheme := "ssh";
     url.User := Some {| url.username := "joe"; url.password := "";
                         url.passwordSet := false |};
     url.Host := "10.0.0.2:22" |}.

Definition ssh_listen : url.URL :=
  {| url.Scheme := "ssh"; url.User := None; url.Host := "127.0.0.1:2222" |}.

Definition url_Parse (s : string) : result url.URL :=
  if String.eqb s "tcp://127.0.0.1:1234" then Ok listen
  else if String.eqb s "ssh://127.0.0.1:2222" then Ok ssh_listen
  else if String.eqb s "ssh://joe@10.0.0.2:22" then Ok connect
  else Err (Error "parse: invalid URL").

(** An ssh listener whose host key file does not exist. *)
Definition flags_no_key : Flags :=
  {| listenURL := "ssh://127.0.0.1:2222"; connectURL := "ssh://joe@10.0.0.2:22";
     caURL := ""; hostKey := "/nonexistent"; debug := false |}.

Definition ReadFile (path : string) : result string :=
  if String.eqb path "/etc/ssh2tcp/id_rsa" then Ok "key"
  else Err (Error "open: no such file or directory").

Definition ParsePrivateKey (pem : string) : result nat :=
  if String.eqb pem "key" then Ok 1%nat
  else Err (Error "ssh: no key found").

Definition tcp_server : Server :=
  SvTcp {| ts_lnr := None; ts_addr := "127.0.0.1:1234" |}.

Definition tcp_client : Client :=
  ClTcp {| tc_addr := "10.0.0.2:80" |}.

Definition ssh_client : Client :=
  ClSsh {| est := false;
           dc := {| sess := None; rdc := None; wrc := None |};
           sc_addr := "10.0.0.2:22";
           cfg := {| ssh.User := "joe";
                     ssh.Auth := [ssh.Password "12345678"];
                     ssh.HostKey := ssh.InsecureIgnoreHostKey |} |}.

Definition bind_error : error := Error "listen tcp 127.0.0.1:1234: bind: address already in use".
Definition dial_error : error := Error "dial tcp 10.0.0.2:22: connect: connection refused".
Definition accept_error : error := Error "accept tcp 127.0.0.1:1234: too many open files".

Definition accept_ok (fd : nat) : AcceptEnv :=
  {| lnr_Accept := Ok (net.TCPConn fd); NewServerConn := Ok tt |}.

Definition accept_fails : AcceptEnv :=
  {| lnr_Accept := Err accept_error; NewServerConn := Ok tt |}.

Definition ssh_ok : SshConnectEnv :=
  {| ssh_Dial := Ok 1%nat; NewSession := Ok 2%nat; StdoutPipe := Ok 3%nat;
     StdinPipe := Ok 4%nat; Shell := Some (Error "ssh: shell request failed") |}.

Definition ssh_refused : SshConnectEnv :=
  {| ssh_Dial := Err dial_error; NewSession := Ok 2%nat; StdoutPipe := Ok 3%nat;
     StdinPipe := Ok 4%nat; Shell := None |}.

Definition dial_ok : ConnectEnv :=
  {| tcp_Dial := Ok (net.TCPConn 9); ssh_env := ssh_ok |}.

Definition dial_fails : ConnectEnv :=
  {| tcp_Dial := Err dial_error; ssh_env := ssh_refused |}.

(** One connection is accepted and handed to the dispatcher, which
    spawns session 0. *)
Definition one_session : list Event :=
  [EvServer (Listen None); EvServer (Accept (accept_ok 7));
   EvDisp (Recv FromServer); EvDisp Spawn].

(** Session 0 dials, both copies end and call [once.Do]; no signal yet. *)
Definition splice_finished : list Event :=
  one_session ++
  [EvRelay 0 (Connect dial_ok);
   EvRelay 0 (CopyEnds S2C); EvRelay 0 (CopyOnce S2C);
   EvRelay 0 (CopyEnds C2S); EvRelay 0 (CopyOnce C2S)].

(** The dispatcher has received the first connection and is still before
    its [go] statement when a second connection is accepted and blocks in
    the send on [dcs]; the signal arrives; only then the dispatcher spawns
    session 0 and comes back to its select. *)
Definition sender_waits_at_shutdown : list Event :=
  [EvServer (Listen None); EvServer (Accept (accept_ok 7));
   EvDisp (Recv FromServer);
   EvServer Select; EvServer (Accept (accept_ok 8));
   EvMain Signal;
   EvDisp Spawn].

(** The accept loop fails on its third call. *)
Definition third_accept_fails : list Event :=
  one_session ++
  [EvServer Select; EvServer (Accept (accept_ok 8));
   EvDisp (Recv FromServer); EvDisp Spawn; EvServer Select].

(** Session 0 dials, the first copy ends and fires the guard, the second
    copy ends and is about to call [once.Do]. *)
Definition guard_fired : list Event :=
  one_session ++
  [EvRelay 0 (Connect dial_ok);
   EvRelay 0 (CopyEnds S2C); EvRelay 0 (CopyOnce S2C);
   EvRelay 0 (CopyEnds C2S)].

(** A second connection waits in the send on [dcs]; no signal yet. *)
Definition sender_waits : list Event :=
  one_session ++ [EvServer Select; EvServer (Accept (accept_ok 8))].

Definition st_or (o : option State) : State :=
  match o with
  | Some st => st
  | None => initial tcp_client tcp_server
  end.

Definition st_one_session : State :=
  Eval vm_compute in st_or (run one_session (initial ssh_client tcp_server)).

Definition st_splice_finished : State :=
  Eval vm_compute in st_or (run splice_finished (initial ssh_client tcp_server)).

Definition st_guard_fired : State :=
  Eval vm_compute in st_or (run guard_fired (initial ssh_client tcp_server)).

Definition st_sender_waits_before : State :=
  Eval vm_compute in st_or (run sender_waits (initial ssh_client tcp_server)).

Definition st_sender_waits : State :=
  Eval vm_compute in st_or (run sender_waits_at_shutdown (initial ssh_client tcp_server)).

Definition st_third_accept : State :=
  Eval vm_compute in st_or (run third_accept_fails (initial ssh_client tcp_server)).

End Ex.

(** ** Vocabulary of the further properties *)

(** A session none of whose goroutines is left. *)
Definition drained (s : Session) : Prop :=
  sup s = RReturned /\ copy_slot (s2c s) = 0 /\ copy_slot (c2s s) = 0.

(** How one step can change one session, with the channels it closes,
    latest first. *)
Inductive session_closes (dn : bool) : Session -> Session -> list DataChannel -> Prop :=
| sc_fail s :
    sup s = RConnect ->
    session_closes dn s (set_sup RReturned s) [sdc s]
| sc_splice s c :
    sup s = RConnect -> cdc s = None -> DataChannel_Close c = Ret tt ->
    session_closes dn s (start_splice c s) []
| sc_copy_ends d s :
    copypc d s = CpCopy ->
    session_closes dn s (set_copypc d CpOnce s) []
| sc_copy_once d s c :
    copypc d s = CpOnce -> cdc s = Some c ->
    session_closes dn s (once_mark (set_copypc d CpReturned s))
      (if once s then [] else [sdc s; c])
| sc_shutdown s c :
    sup s = RSelect -> dn = true -> cdc s = Some c ->
    session_closes dn s (once_mark (set_sup RReturned s))
      (if once s then [] else [sdc s; c]).

(** How one step can change the sessions and the log of closed channels
    together. *)
Inductive relay_closes (dn : bool) (l : list Session) (cl : list DataChannel)
  : list Session -> list DataChannel -> Prop :=
| rc_other new : relay_closes dn l cl l (new ++ cl)
| rc_spawn d :
    DataChannel_Close d = Ret tt ->
    relay_closes dn l cl (l ++ [new_session d]) cl
| rc_upd i s s' new :
    l !! i = Some s -> session_closes dn s s' new ->
    relay_closes dn l cl (<[i:=s']> l) (new ++ cl).

(** The channels of a session whose guard is spent, or whose [setupRelay]
    or copy goroutine has returned, have been closed. *)
Definition torn_down (cl : list DataChannel) (s : Session) : Prop :=
  (once s = true -> sdc s ∈ cl /\ forall c, cdc s = Some c -> c ∈ cl)
  /\ (sup s = RReturned -> cdc s = None -> sdc s ∈ cl)
  /\ (sup s = RReturned -> is_Some (cdc s) -> once s = true)
  /\ (s2c s = CpReturned -> once s = true)
  /\ (c2s s = CpReturned -> once s = true).

(** The life of a session only goes forward. *)
Definition session_le (s s' : Session) : Prop :=
  sdc s' = sdc s
  /\ (forall c, cdc s = Some c -> cdc s' = Some c)
  /\ (once s = true -> once s' = true)
  /\ (sup s = RReturned -> sup s' = RReturned)
  /\ (s2c s = CpReturned -> s2c s' = CpReturned)
  /\ (c2s s = CpReturned -> c2s s' = CpReturned).

(** [main] has left the signal loop. *)
Definition signalled (pc : MainPc) : bool :=
  match pc with
  | MSignal => false
  | _ => true
  end.

(** [Listen] has been tried and [s.lnr] is nil. *)
Definition no_listener (st : State) : Prop :=
  Server_lnr (server st) = None /\ srvpc st <> SListen.

(** The backend of a server. *)
Definition is_ssh_server (s : Server) : bool :=
  match s with
  | SvTcp _ => false
  | SvSsh _ => true
  end.

(** [doServer] is blocked in the send of [TcpServer.Accept]. *)
Definition sending (pc : ServerPc) : bool :=
  match pc with
  | SSend _ => true
  | _ => false
  end.

(** Where the items of [dcs] come from, by backend. *)
Definition ingest_ok (st : State) : Prop :=
  if is_ssh_server (server st) then sending (srvpc st) = false
  else conns st = [].

(** Further concrete inputs. *)
Module Ex2.

(** A connection is accepted and blocks in the send on [dcs]; the signal
    arrives and the dispatcher takes the case on [done]. *)
Definition undelivered : list Event :=
  [EvServer (Listen None); EvServer (Accept (Ex.accept_ok 7));
   EvMain Signal; EvDisp Done].

Definition st_undelivered : State :=
  Eval vm_compute in Ex.st_or (run undelivered (initial Ex.ssh_client Ex.tcp_server)).

(** [Listen] fails, the signal arrives, [main] is about to close the
    server. *)
Definition listen_failed_shutdown : list Event :=
  [EvMain Signal; EvDisp Done; EvMain ClientClose].

(** A whole life: one session is relayed, the signal arrives, everything
    returns, [main] is in [wg.Wait()]. *)
Definition full_drain : list Event :=
  Ex.splice_finished ++
  [EvServer Select; EvServer (Accept Ex.accept_fails);
   EvMain Signal; EvDisp Done; EvRelay 0 ShutdownSeen;
   EvMain ClientClose; EvMain ServerClose].

Definition st_full_drain : State :=
  Eval vm_compute in Ex.st_or (run full_drain (initial Ex.ssh_client Ex.tcp_server)).

(** The ssh library answers: the dial and the session succeed, the stdout
    pipe fails. *)
Definition ssh_pipe_fails : SshConnectEnv :=
  {| ssh_Dial := Ok 1%nat; NewSession := Ok 2%nat;
     StdoutPipe := Err (Error "ssh: Stdout already set");
     StdinPipe := Ok 4%nat; Shell := None |}.

Definition fresh_ssh_client : SshClient :=
  mkSshClient false (mkSshClientDataChannel None None None) "10.0.0.2:22"
    (ssh.mkClientConfig "joe" [ssh.Password "12345678"] ssh.InsecureIgnoreHostKey).

(** A listen descriptor with a scheme the program does not know. *)
Definition flags_bad_scheme : Flags :=
  {| listenURL := "udp://127.0.0.1:1234"; connectURL := "ssh://joe@10.0.0.2:22";
     caURL := ""; hostKey := ""; debug := false |}.

Definition url_Parse (s : string) : result url.URL :=
  if String.eqb s "udp://127.0.0.1:1234"
  then Ok {| url.Scheme := "udp"; url.User := None; url.Host := "127.0.0.1:1234" |}
  else Ex.url_Parse s.

End Ex2.

(** ** Several [Connect] calls on one [SshClient] *)

(** [setupRelay] runs in one goroutine per session and calls [c.Connect()]
    on the one client that all sessions share; [SshClient.Connect] keeps
    what it obtains in its receiver and takes no lock.  The step function
    above runs a whole [Connect] as one step.  Here the statements of
    [SshClient.Connect] are steps of their own, so that the calls of several
    sessions interleave: a call is at the statement it executes next. *)
Inductive DialPc : Type :=
| DpStart                          (* c.est = false *)
| DpDial                           (* cc, err := ssh.Dial *)
| DpNewSession                     (* c.dc.sess, err = cc.NewSession *)
| DpEst                            (* c.est = true *)
| DpStdout                         (* c.dc.rdc, err = c.dc.sess.StdoutPipe *)
| DpStdin                          (* c.dc.wrc, err = c.dc.sess.StdinPipe *)
| DpShell                          (* err = c.dc.sess.Shell *)
| DpReturn                         (* return c.dc, nil *)
| DpReturned (r : result DataChannel).

(** One statement of one call, with the answer of the ssh library. *)
Inductive DialEv : Type :=
| DStart
| DDial (r : result nat)
| DNewSession (r : result nat)
| DEst
| DStdout (r : result nat)
| DStdin (r : result nat)
| DShell (r : option error)
| DReturn.

(** The shared receiver, the calls in flight and the panic, if any. *)
Record Dialers : Type := mkDialers {
  shared : SshClient;
  calls : list DialPc;
  crashed : option string
}.

Definition set_call (k : nat) (pc : DialPc) (c : SshClient) (d : Dialers)
  : Dialers :=
  {| shared := c; calls := <[k:=pc]> (calls d); crashed := crashed d |}.

Definition dial_panic (m : string) (d : Dialers) : Dialers :=
  {| shared := shared d; calls := calls d; crashed := Some m |}.

(** [if err != nil { return nil, err }], else on to [next]. *)
Definition or_return {A : Type} (r : result A) (next : DialPc) : DialPc :=
  match r with
  | Ok _ => next
  | Err e => DpReturned (Err e)
  end.

(** One statement of call [k].  The three method calls on [c.dc.sess] read
    the field of the shared receiver at that moment; on a nil session they
    dereference it. *)
Definition Connect_step (k : nat) (ev : DialEv) (d : Dialers) : option Dialers :=
  match crashed d with
  | Some _ => None
  | None =>
      let c := shared d in
      match calls d !! k, ev with
      | Some DpStart, DStart =>
          Some (set_call k DpDial (set_est false c) d)
      | Some DpDial, DDial r =>
          Some (set_call k (or_return r DpNewSession) c d)
      | Some DpNewSession, DNewSession r =>
          Some (set_call k (or_return r DpEst)
                  (set_dc {| sess := ptr_of r;
                             rdc := rdc (dc c); wrc := wrc (dc c) |} c) d)
      | Some DpEst, DEst =>
          Some (set_call k DpStdout (set_est true c) d)
      | Some DpStdout, DStdout r =>
          Some (match sess (dc c) with
                | None => dial_panic nil_deref d
                | Some _ =>
                    set_call k (or_return r DpStdin)
                      (set_dc {| sess := sess (dc c);
                                 rdc := ptr_of r; wrc := wrc (dc c) |} c) d
                end)
      | Some DpStdin, DStdin r =>
          Some (match sess (dc c) with
                | None => dial_panic nil_deref d
                | Some _ =>
                    set_call k (or_return r DpShell)
                      (set_dc {| sess := sess (dc c);
                                 rdc := rdc (dc c); wrc := ptr_of r |} c) d
                end)
      | Some DpShell, DShell _ =>
          Some (match sess (dc c) with
                | None => dial_panic nil_deref d
                | Some _ => set_call k DpReturn c d
                end)
      | Some DpReturn, DReturn =>
          Some (set_call k (DpReturned (Ok (DcSshClient (dc c)))) c d)
      | _, _ => None
      end
  end.

Fixpoint Connect_run (evs : list (nat * DialEv)) (d : Dialers) : option Dialers :=
  match evs with
  | [] => Some d
  | (k, ev) :: evs =>
      match Connect_step k ev d with
      | Some d' => Connect_run evs d'
      | None => None
      end
  end.

(** The statements one call executes under the answers [env], up to its
    return. *)
Definition Connect_script (env : SshConnectEnv) : list DialEv :=
  DStart :: DDial (ssh_Dial env) ::
  match ssh_Dial env with
  | Err _ => []
  | Ok _ =>
      DNewSession (NewSession env) ::
      match NewSession env with
      | Err _ => []
      | Ok _ =>
          DEst :: DStdout (StdoutPipe env) ::
          match StdoutPipe env with
          | Err _ => []
          | Ok _ =>
              DStdin (StdinPipe env) ::
              match StdinPipe env with
              | Err _ => []
              | Ok _ => [DShell (Shell env); DReturn]
              end
          end
      end
  end.



(** Concrete inputs for the shutdown and for the shared client. *)
Module Ex3.












End Ex3.

(** ** The two clients *)

(** C5. When [net.Dial] fails, the connection is nil, the log statement of
    the failure branch calls [RemoteAddr] through it, and
    [TcpClient.Connect] panics with a nil dereference instead of returning
    the error; a relay session that dials through a TCP client then never
    reaches its error branch: the process is gone, no session and no
    channel has changed. *)
Theorem TcpClient_Connect_failed_dial_panics (c : TcpClient) (e : error) :
  fst (net.Dial (Err e)) = None
  /\ net.RemoteAddr (fst (net.Dial (Err e))) = Panics nil_deref
  /\ TcpClient_Connect (Err e) c = Panics nil_deref
  /\ (forall senv, Client_Connect (mkConnectEnv (Err e) senv) (ClTcp c)
                   = Panics nil_deref)
  /\ (forall st i s senv,
        alive st = true -> client st = ClTcp c ->
        sessions st !! i = Some s -> sup s = RConnect ->
        step (EvRelay i (Connect (mkConnectEnv (Err e) senv))) st
        = Some (set_panicked (Some nil_deref) st)).
Proof.
  repeat split; try reflexivity.
  intros st i s senv Hal Hc Hs Hsup.
  unfold step, setupRelay_step. rewrite Hal, Hs, Hsup, Hc. simpl.
  unfold panic. unfold alive in Hal.
  destruct (panicked st); [discriminate | reflexivity].
Qed.

Lemma TcpClient_Connect_failed_dial_panics_witness :
  let st := initial Ex.tcp_client Ex.tcp_server in
  TcpClient_Connect (Err Ex.dial_error) (mkTcpClient "10.0.0.2:80") = Panics nil_deref
  /\ exists st1, run Ex.one_session st = Some st1
     /\ step (EvRelay 0 (Connect Ex.dial_fails)) st1
        = Some (set_panicked (Some nil_deref) st1).
Proof.
  pose proof (TcpClient_Connect_failed_dial_panics
                (mkTcpClient "10.0.0.2:80") Ex.dial_error) as (_ & _ & H3 & _ & H5).
  split; [exact H3|].
  eexists. split; [reflexivity|].
  apply (H5 _ 0%nat (new_session (DcTCPConn (Some 7%nat)))); reflexivity.
Defined.

(** C9. An ssh connect descriptor always yields an ssh client; its only
    credential is a password, the fixed one when the user info carries no
    password; its host key callback accepts every host key. *)
Theorem initClient_ssh_credentials (u : url.URL) (ca : string) :
  url.Scheme u = "ssh" ->
  exists sc,
    initClient u ca = Ok (ClSsh sc)
    /\ ssh.Auth (cfg sc)
       = [ssh.Password (if snd (url.Password (url.User u))
                        then fst (url.Password (url.User u))
                        else "12345678")]
    /\ forall host key, ssh.HostKey (cfg sc) host key = None.
Proof.
  intros Hs. unfold initClient. rewrite Hs. simpl.
  destruct (negb (String.eqb ca "")); destruct (url.Password (url.User u)) as [pw [|]];
    simpl; eexists; (split; [reflexivity|]); simpl; split; reflexivity.
Qed.

Lemma initClient_ssh_credentials_witness :
  url.Scheme Ex.connect = "ssh"
  /\ snd (url.Password (url.User Ex.connect)) = false
  /\ exists sc,
       initClient Ex.connect "" = Ok (ClSsh sc)
       /\ ssh.Auth (cfg sc) = [ssh.Password "12345678"]
       /\ forall host key, ssh.HostKey (cfg sc) host key = None.
Proof.
  split; [reflexivity|]. split; [reflexivity|].
  exact (initClient_ssh_credentials Ex.connect "" eq_refl).
Defined.

(** C10. When [SshClient.Connect] gets as far as [Shell()], it returns its
    data channel and a nil error, the same for every outcome of
    [Shell()]. *)
Theorem SshClient_Connect_discards_shell_error
    (env : SshConnectEnv) (c : SshClient) (cc s r w : nat) :
  ssh_Dial env = Ok cc -> NewSession env = Ok s ->
  StdoutPipe env = Ok r -> StdinPipe env = Ok w ->
  exists c' d,
    forall shell_err : option error,
      SshClient_Connect (with_Shell shell_err env) c = (c', Ok d).
Proof.
  intros Hd Hn Ho Hi. do 2 eexists. intros shell_err.
  unfold SshClient_Connect, with_Shell. simpl.
  rewrite Hd, Hn, Ho, Hi. simpl. reflexivity.
Qed.

Lemma SshClient_Connect_discards_shell_error_witness :
  exists c' d,
    SshClient_Connect (with_Shell (Some (Error "ssh: shell request failed")) Ex.ssh_ok)
      (mkSshClient false (mkSshClientDataChannel None None None) "10.0.0.2:22"
         (ssh.mkClientConfig "joe" [ssh.Password "12345678"] ssh.InsecureIgnoreHostKey))
    = (c', Ok d)
    /\ SshClient_Connect (with_Shell None Ex.ssh_ok)
         (mkSshClient false (mkSshClientDataChannel None None None) "10.0.0.2:22"
            (ssh.mkClientConfig "joe" [ssh.Password "12345678"] ssh.InsecureIgnoreHostKey))
       = (c', Ok d).
Proof.
  destruct (SshClient_Connect_discards_shell_error Ex.ssh_ok
              (mkSshClient false (mkSshClientDataChannel None None None) "10.0.0.2:22"
                 (ssh.mkClientConfig "joe" [ssh.Password "12345678"]
                    ssh.InsecureIgnoreHostKey))
              1%nat 2%nat 3%nat 4%nat eq_refl eq_refl eq_refl eq_refl)
    as (c' & d & H).
  exists c', d. split; apply H.
Defined.

(** ** The relay engine: how a step changes the state *)

Ltac prims :=
  unfold wg_Done, wg_Add, closer, close_dc, panic, upd_session in *.

Ltac pcs :=
  repeat match goal with
         | H : srvpc _ = _ |- _ => rewrite H
         | H : disppc _ = _ |- _ => rewrite H
         | H : mainpc _ = _ |- _ => rewrite H
         end.

(** Two different values for one program counter. *)
Ltac pc_contra :=
  match goal with
  | H1 : ?x = ?a, H2 : ?x = ?b |- _ =>
      rewrite H1 in H2; discriminate H2
  end.

Ltac step_inv H :=
  unfold step in H;
  match type of H with
  | (if alive ?st then _ else _) = _ =>
      let Hal := fresh "Halive" in
      destruct (alive st) eqn:Hal; [|discriminate H]
  end.

Lemma run_app evs1 evs2 st :
  run (evs1 ++ evs2) st = run evs1 st ≫= run evs2.
Proof.
  revert st. induction evs1 as [|ev evs1 IH]; intros st; simpl; [done|].
  destruct (step ev st); simpl; [apply IH | done].
Qed.

Lemma alive_panicked st : alive st = true -> panicked st = None.
Proof. unfold alive. by destruct (panicked st). Qed.

Lemma once_Do_closer_upd i s st :
  (i < length (sessions st))%nat ->
  once_Do_closer i (upd_session i s st) =
  if once s then upd_session i s st
  else closer s (upd_session i (set_once_fired s) st).
Proof.
  intros Hi. unfold once_Do_closer, upd_session. simpl.
  rewrite list_lookup_insert_eq by done.
  destruct (once s); [done|]. simpl. by rewrite list_insert_insert_eq.
Qed.

(** Case analysis on an enabled step: one goal per branch of the step
    functions, the successor state written with setters only. *)
Ltac step_cases H :=
  step_inv H;
  unfold main_step, doServer_step, conn_step, newServerChannel_step,
    setupRelay_step, Server_Close, Server_Listen in H;
  repeat (case_match; simplify_eq);
  rewrite ?once_Do_closer_upd in * by (eapply lookup_lt_Some; eassumption);
  prims; repeat case_match; simpl in *; simplify_eq.

Lemma SshClient_Connect_Ok_sess env c c' d :
  SshClient_Connect env c = (c', Ok d) -> DataChannel_Close d = Ret tt.
Proof.
  unfold SshClient_Connect.
  destruct (ssh_Dial env); [|intros; simplify_eq].
  destruct (NewSession env) eqn:Hn; [|intros; simplify_eq].
  destruct (StdoutPipe env); [|intros; simplify_eq].
  destruct (StdinPipe env); [|intros; simplify_eq].
  intros; simplify_eq. reflexivity.
Qed.

Lemma Client_Connect_Ok_Close env c c' d :
  Client_Connect env c = Ret (c', Ok d) -> DataChannel_Close d = Ret tt.
Proof.
  destruct c as [tc|sc]; simpl.
  - unfold TcpClient_Connect.
    destruct (tcp_Dial env) as [[fd|fd]|e]; simpl; intros; simplify_eq; done.
  - destruct (SshClient_Connect (ssh_env env) sc) as [sc' r] eqn:H.
    intros; simplify_eq. eauto using SshClient_Connect_Ok_sess.
Qed.

Lemma as_DataChannel_Close a d :
  as_DataChannel a = Some d -> DataChannel_Close d = Ret tt.
Proof. destruct a as [[fd|fd]|id]; simpl; intros; simplify_eq; done. Qed.

(** Every step changes the sessions in one of the listed ways. *)
Lemma step_sessions ev st st' :
  step ev st = Some st' ->
  sessions_step (done st) (sessions st) (sessions st').
Proof.
  intros H. step_inv H.
  destruct ev as [e|e|j e|e|i e].
  - unfold main_step in H.
    repeat (case_match; simplify_eq); prims; repeat case_match; simpl; constructor.
  - unfold doServer_step in H.
    repeat (case_match; simplify_eq); prims; repeat case_match; simpl; constructor.
  - unfold conn_step in H.
    repeat (case_match; simplify_eq); simpl; constructor.
  - unfold newServerChannel_step in H.
    repeat (case_match; simplify_eq); prims; repeat case_match; simpl;
      try constructor; eauto using as_DataChannel_Close.
  - unfold setupRelay_step in H.
    destruct (sessions st !! i) as [s|] eqn:Hs; [|done].
    assert (Hi := lookup_lt_Some _ _ _ Hs).
    destruct e as [env|d|d|].
    + destruct (sup s) eqn:Hsup; simplify_eq.
      destruct (Client_Connect env (client st)) as [[c [cdc|e]]|m] eqn:HC.
      * prims. repeat case_match; simpl;
          econstructor; eauto; econstructor; eauto using Client_Connect_Ok_Close.
      * prims. repeat case_match; simpl;
          econstructor; eauto; econstructor; eauto.
      * prims. repeat case_match; simpl; constructor.
    + destruct (copypc d s) eqn:Hd; simplify_eq. simpl.
      econstructor; eauto. by constructor.
    + destruct (copypc d s) eqn:Hd; simplify_eq.
      rewrite once_Do_closer_upd by done.
      assert (session_step (done st) s (once_mark (set_copypc d CpReturned s)))
        by by constructor.
      unfold once_mark in *.
      prims. repeat case_match; simpl; econstructor; eauto.
    + destruct (sup s) eqn:Hsup; simplify_eq.
      destruct (done st) eqn:Hdn; simplify_eq.
      rewrite once_Do_closer_upd by done.
      assert (session_step true s (once_mark (set_sup RReturned s)))
        by by constructor.
      unfold once_mark in *.
      prims. repeat case_match; simpl; econstructor; eauto.
Qed.

(** [done] is closed by the signal step only, and stays closed. *)
Lemma step_done ev st st' :
  step ev st = Some st' ->
  done st' = done st \/ (ev = EvMain Signal /\ done st' = true).
Proof.
  intros H. step_inv H.
  destruct ev as [e|e|j e|e|i e].
  - unfold main_step in H.
    repeat (case_match; simplify_eq); prims; repeat case_match; simpl; auto.
  - unfold doServer_step in H.
    repeat (case_match; simplify_eq); prims; repeat case_match; simpl; auto.
  - unfold conn_step in H.
    repeat (case_match; simplify_eq); simpl; auto.
  - unfold newServerChannel_step in H.
    repeat (case_match; simplify_eq); prims; repeat case_match; simpl; auto.
  - unfold setupRelay_step in H.
    destruct (sessions st !! i) as [s|] eqn:Hs; [|done].
    assert (Hi := lookup_lt_Some _ _ _ Hs).
    destruct e as [env|d|d|].
    + repeat (case_match; simplify_eq); prims; repeat case_match; simpl; auto.
    + repeat (case_match; simplify_eq); simpl; auto.
    + destruct (copypc d s); simplify_eq.
      rewrite once_Do_closer_upd by done.
      prims. repeat case_match; simpl; auto.
    + destruct (sup s); simplify_eq. destruct (done st) eqn:Hdn; simplify_eq.
      rewrite once_Do_closer_upd by done.
      prims. repeat case_match; simpl; auto.
Qed.

Lemma step_done_mono ev st st' :
  step ev st = Some st' -> done st = true -> done st' = true.
Proof.
  intros H Hd. destruct (step_done _ _ _ H) as [->|[_ ->]]; done.
Qed.

(** ** Invariants *)

Lemma session_ok_mono dn dn' s :
  session_ok dn s -> (dn = true -> dn' = true) -> session_ok dn' s.
Proof.
  unfold session_ok. intros (Hf & Hc & H) Hdn. repeat split; try done.
  destruct (cdc s); [|done]. intuition congruence.
Qed.

Lemma new_session_ok dn d :
  DataChannel_Close d = Ret tt -> session_ok dn (new_session d).
Proof. intros H. unfold session_ok; simpl. intuition congruence. Qed.

Lemma session_step_ok dn s s' :
  session_step dn s s' -> session_ok dn s -> session_ok dn s'.
Proof.
  unfold session_ok, once_mark.
  destruct 1 as [s Hs|s c Hs Hc|d s Hd|d s Hd|s Hs Hdn];
    destruct s as [sdc0 cdc0 sup0 s2c0 c2s0 once0 fired0];
    try destruct d; simpl in *; subst;
    destruct cdc0, once0; simpl; intuition congruence.
Qed.

Lemma session_ok_RConnect dn s :
  session_ok dn s -> sup s = RConnect ->
  cdc s = None /\ s2c s = CpNone /\ c2s s = CpNone.
Proof.
  unfold session_ok. intros (_ & _ & H) Hs.
  destruct (cdc s); intuition congruence.
Qed.

Lemma session_ok_dialed dn s c :
  session_ok dn s -> cdc s = Some c ->
  DataChannel_Close (sdc s) = Ret tt /\ DataChannel_Close c = Ret tt
  /\ (sup s = RSelect \/ (sup s = RReturned /\ dn = true)).
Proof.
  unfold session_ok. intros (_ & Hc & H) Hs. rewrite Hs in H.
  destruct (sup s); intuition congruence.
Qed.

Lemma sessions_step_ok dn l l' :
  sessions_step dn l l' ->
  Forall (session_ok dn) l -> Forall (session_ok dn) l'.
Proof.
  destruct 1 as [|d Hd|i s s' Hs Hstep]; intros Hl.
  - done.
  - apply Forall_app. split; [done|].
    constructor; [by apply new_session_ok | constructor].
  - apply Forall_insert; [done|].
    eapply session_step_ok; [done|]. by eapply Forall_lookup_1.
Qed.

Lemma step_sessions_ok ev st st' :
  step ev st = Some st' ->
  Forall (session_ok (done st)) (sessions st) ->
  Forall (session_ok (done st')) (sessions st').
Proof.
  intros H Hl.
  eapply Forall_impl.
  - eapply sessions_step_ok; [eapply step_sessions; eassumption|done].
  - intros s Hs. eapply session_ok_mono; [done|].
    intros Hd. by eapply step_done_mono.
Qed.

Lemma slots_nonneg s : 0 <= slots s.
Proof.
  unfold slots. destruct (sup s), (s2c s), (c2s s); simpl; lia.
Qed.

Lemma total_slots_app l1 l2 :
  total_slots (l1 ++ l2) = total_slots l1 + total_slots l2.
Proof. induction l1 as [|s l1 IH]; simpl; lia. Qed.

Lemma total_slots_insert l i s s' :
  l !! i = Some s ->
  total_slots (<[i:=s']> l) = total_slots l - slots s + slots s'.
Proof.
  revert i. induction l as [|x l IH]; intros [|i] H; simplify_eq/=; [lia|].
  rewrite (IH i) by done. lia.
Qed.

Lemma total_slots_nonneg l : 0 <= total_slots l.
Proof.
  induction l as [|s l IH]; simpl; [lia|]. pose proof (slots_nonneg s). lia.
Qed.

Lemma total_slots_lookup l i s :
  l !! i = Some s -> slots s <= total_slots l.
Proof.
  revert i. induction l as [|x l IH]; intros [|i] H; simplify_eq/=.
  - pose proof (total_slots_nonneg l). lia.
  - pose proof (IH _ H). pose proof (slots_nonneg x). lia.
Qed.

Lemma slots_once_mark s : slots (once_mark s) = slots s.
Proof. unfold once_mark. by destruct (once s). Qed.

Lemma slots_set_copypc d v s :
  slots (set_copypc d v s) = slots s - copy_slot (copypc d s) + copy_slot v.
Proof. destruct d; unfold slots; simpl; lia. Qed.

Lemma slots_set_sup v s :
  slots (set_sup v s) = slots s - relay_slot (sup s) + relay_slot v.
Proof. unfold slots; simpl; lia. Qed.

Lemma tasks_lookup st i s :
  sessions st !! i = Some s -> slots s <= tasks st.
Proof.
  intros H. apply total_slots_lookup in H. unfold tasks.
  destruct (srvpc st), (disppc st); simpl; lia.
Qed.

(** A step that does not panic moves [wg] and the number of live tracked
    goroutines by the same amount. *)
Lemma step_wg ev st st' :
  step ev st = Some st' -> panicked st' = None ->
  Forall (session_ok (done st)) (sessions st) ->
  wg st' - tasks st' = wg st - tasks st.
Proof.
  intros H Hp Hok. step_inv H.
  destruct ev as [e|e|j e|e|i e].
  - unfold main_step in H.
    repeat (case_match; simplify_eq); prims; repeat case_match;
      simpl in *; simplify_eq; unfold tasks; simpl; lia.
  - unfold doServer_step in H.
    repeat (case_match; simplify_eq); prims; repeat case_match;
      simpl in *; simplify_eq; unfold tasks; simpl; pcs; simpl; lia.
  - unfold conn_step in H.
    repeat (case_match; simplify_eq); unfold tasks; simpl; lia.
  - unfold newServerChannel_step in H.
    repeat (case_match; simplify_eq); prims; repeat case_match;
      simpl in *; simplify_eq; unfold tasks; simpl; pcs;
      rewrite ?total_slots_app; simpl; unfold slots; simpl; lia.
  - unfold setupRelay_step in H.
    destruct (sessions st !! i) as [s|] eqn:Hs; [|done].
    assert (Hi := lookup_lt_Some _ _ _ Hs).
    destruct e as [env|d|d|].
    + destruct (sup s) eqn:Hsup; simplify_eq.
      destruct (session_ok_RConnect _ _ (Forall_lookup_1 _ _ _ _ Hok Hs) Hsup)
        as (_ & H1 & H2).
      destruct (Client_Connect env (client st)) as [[c [cdc|e]]|m] eqn:HC;
        prims; repeat case_match; simpl in *; simplify_eq;
        unfold tasks; simpl; rewrite (total_slots_insert _ _ _ _ Hs);
        unfold slots; simpl; rewrite Hsup, H1, H2; simpl; lia.
    + destruct (copypc d s) eqn:Hd; simplify_eq.
      unfold tasks; simpl. rewrite (total_slots_insert _ _ _ _ Hs).
      rewrite slots_set_copypc, Hd. simpl. lia.
    + destruct (copypc d s) eqn:Hd; simplify_eq.
      rewrite once_Do_closer_upd in Hp |- * by done.
      assert (slots (set_once_fired (set_copypc d CpReturned s)) = slots s - 1) as E1.
      { change (slots (set_once_fired ?x)) with (slots x).
        rewrite slots_set_copypc, Hd. simpl. lia. }
      assert (slots (set_copypc d CpReturned s) = slots s - 1) as E2.
      { rewrite slots_set_copypc, Hd. simpl. lia. }
      prims. repeat case_match; simpl in *; simplify_eq;
        unfold tasks; simpl; rewrite (total_slots_insert _ _ _ _ Hs); lia.
    + destruct (sup s) eqn:Hsup; simplify_eq.
      destruct (done st) eqn:Hdn; simplify_eq.
      rewrite once_Do_closer_upd in Hp |- * by done.
      assert (slots (set_once_fired (set_sup RReturned s)) = slots s - 1) as E1.
      { change (slots (set_once_fired ?x)) with (slots x).
        rewrite slots_set_sup, Hsup. simpl. lia. }
      assert (slots (set_sup RReturned s) = slots s - 1) as E2.
      { rewrite slots_set_sup, Hsup. simpl. lia. }
      prims. repeat case_match; simpl in *; simplify_eq;
        unfold tasks; simpl; rewrite (total_slots_insert _ _ _ _ Hs); lia.
Qed.

Lemma Server_lnr_set l s : Server_lnr (Server_set_lnr l s) = l.
Proof. by destruct s. Qed.

Lemma step_lnr_ok ev st st' :
  step ev st = Some st' -> lnr_ok st -> lnr_ok st'.
Proof.
  intros H Hl. unfold lnr_ok in *.
  step_cases H; rewrite ?Server_lnr_set; try pc_contra;
    repeat case_match; simplify_eq; try pc_contra; eauto;
    exfalso; eapply is_Some_None; eassumption.
Qed.

Lemma step_panicked ev st st' :
  step ev st = Some st' -> panicked st = None.
Proof. intros H. step_inv H. by apply alive_panicked. Qed.

Lemma initial_inv c s : inv (initial c s).
Proof. repeat split; simpl; auto. Qed.

Lemma step_inv_preserved ev st st' :
  step ev st = Some st' -> inv st -> inv st'.
Proof.
  intros H (Hok & Hwg & Hl). repeat split.
  - by eapply step_sessions_ok.
  - intros Hp. pose proof (step_wg _ _ _ H Hp Hok).
    pose proof (Hwg (step_panicked _ _ _ H)). lia.
  - by eapply step_lnr_ok.
Qed.

Lemma run_inv evs st st' :
  run evs st = Some st' -> inv st -> inv st'.
Proof.
  revert st. induction evs as [|ev evs IH]; intros st H Hinv; simplify_eq/=.
  - done.
  - destruct (step ev st) as [st1|] eqn:Hst; [|done].
    eauto using step_inv_preserved.
Qed.

Lemma reachable_inv st : reachable st -> inv st.
Proof.
  intros (c & s & evs & H). eauto using run_inv, initial_inv.
Qed.

Lemma reachable_step ev st st' :
  reachable st -> step ev st = Some st' -> reachable st'.
Proof.
  intros (c & s & evs & H) Hst. exists c, s, (evs ++ [ev])%list.
  rewrite run_app, H. simpl. by rewrite Hst.
Qed.

(** ** The close-once guard *)

(** [once.Do(closer)] followed by the deferred [wg.Done()], in a session
    that has dialed: [s1] is the session with the caller's program counter
    advanced. *)
Lemma trigger_effect dn st i s s1 c :
  sessions st !! i = Some s -> session_ok dn s -> cdc s = Some c ->
  once s1 = once s -> fired s1 = fired s -> sdc s1 = sdc s -> cdc s1 = cdc s ->
  exists s',
    sessions (wg_Done (once_Do_closer i (upd_session i s1 st))) !! i = Some s'
    /\ once s' = true /\ fired s' = 1%nat /\ sdc s' = sdc s /\ cdc s' = cdc s
    /\ (forall j, j <> i ->
          sessions (wg_Done (once_Do_closer i (upd_session i s1 st))) !! j
          = sessions st !! j)
    /\ if once s
       then closed (wg_Done (once_Do_closer i (upd_session i s1 st))) = closed st
       else closed (wg_Done (once_Do_closer i (upd_session i s1 st)))
            = sdc s :: c :: closed st.
Proof.
  intros Hs (Hf & Hcs & Hc) Hcd Ho1 Hf1 Hsd1 Hcd1.
  assert (Hi := lookup_lt_Some _ _ _ Hs).
  rewrite once_Do_closer_upd by done. rewrite Ho1.
  rewrite Hcd in Hc. destruct Hc as (Hcc & _).
  destruct (once s) eqn:Ho.
  - exists s1. prims. repeat case_match; simpl;
      rewrite list_lookup_insert_eq by done;
      repeat split; try congruence;
      intros j Hj; by rewrite list_lookup_insert_ne.
  - exists (set_once_fired s1). prims. rewrite Hcd1, Hcd, Hsd1, Hcc, Hcs.
    repeat case_match; simpl;
      rewrite list_lookup_insert_eq by done;
      repeat split; simpl; try congruence;
      intros j Hj; by rewrite list_lookup_insert_ne.
Qed.

(** C1. In every state of every execution [closer] has run at most once in
    each session, exactly when the [sync.Once] is spent.  Each of the three
    calls of [once.Do(closer)] leaves the session with the guard spent and
    [closer] run once in total, and touches no other session; a call that
    finds the guard spent closes nothing and changes neither channel of
    the session, a call that finds it fresh closes the outbound and then
    the inbound channel. *)
Theorem close_once_guard (st : State) (i : nat) (s : Session) :
  reachable st -> sessions st !! i = Some s ->
  fired s = (if once s then 1%nat else 0%nat)
  /\ forall e st',
       trigger e = true -> step (EvRelay i e) st = Some st' ->
       exists s',
         sessions st' !! i = Some s' /\ once s' = true /\ fired s' = 1%nat
         /\ sdc s' = sdc s /\ cdc s' = cdc s
         /\ (forall j, j <> i -> sessions st' !! j = sessions st !! j)
         /\ if once s then closed st' = closed st
            else exists c, cdc s = Some c /\ closed st' = sdc s :: c :: closed st.
Proof.
  intros Hr Hs.
  destruct (reachable_inv _ Hr) as (Hok & _ & _).
  pose proof (Forall_lookup_1 _ _ _ _ Hok Hs) as Hsok.
  split; [apply Hsok|].
  intros e st' Ht H. step_inv H. unfold setupRelay_step in H. rewrite Hs in H.
  assert (forall s1 c,
             cdc s = Some c ->
             once s1 = once s -> fired s1 = fired s ->
             sdc s1 = sdc s -> cdc s1 = cdc s ->
             st' = wg_Done (once_Do_closer i (upd_session i s1 st)) ->
             exists s',
               sessions st' !! i = Some s' /\ once s' = true /\ fired s' = 1%nat
               /\ sdc s' = sdc s /\ cdc s' = cdc s
               /\ (forall j, j <> i -> sessions st' !! j = sessions st !! j)
               /\ if once s then closed st' = closed st
                  else exists c, cdc s = Some c
                                 /\ closed st' = sdc s :: c :: closed st) as Hgen.
  { clear H. intros s1 c Hcd Ho1 Hf1 Hsd1 Hcd1 ->.
    destruct (trigger_effect _ st i s s1 c Hs Hsok Hcd Ho1 Hf1 Hsd1 Hcd1)
      as (s' & H1 & H2 & H3 & H4 & H5 & H6 & H7).
    exists s'. repeat split; try done.
    destruct (once s); [done|]. eauto. }
  destruct Hsok as (_ & _ & Hc).
  destruct e as [env|d|d|]; try discriminate Ht.
  - destruct (copypc d s) eqn:Hd; simplify_eq.
    destruct (cdc s) as [c|] eqn:Hcd.
    + apply (Hgen (set_copypc d CpReturned s) c); try (by destruct d).
    + destruct Hc as (_ & H1 & H2 & _). destruct d; simpl in Hd; congruence.
  - destruct (sup s) eqn:Hsup; simplify_eq. destruct (done st); simplify_eq.
    destruct (cdc s) as [c|] eqn:Hcd.
    + by apply (Hgen (set_sup RReturned s) c).
    + destruct Hc as (H1 & _). congruence.
Qed.

Lemma close_once_guard_witness :
  reachable Ex.st_guard_fired
  /\ exists s,
       sessions Ex.st_guard_fired !! 0%nat = Some s
       /\ once s = true /\ fired s = 1%nat
       /\ exists st' s',
            step (EvRelay 0 (CopyOnce C2S)) Ex.st_guard_fired = Some st'
            /\ sessions st' !! 0%nat = Some s' /\ fired s' = 1%nat
            /\ closed st' = closed Ex.st_guard_fired.
Proof.
  assert (Hr : reachable Ex.st_guard_fired).
  { exists Ex.ssh_client, Ex.tcp_server, Ex.guard_fired. vm_compute. reflexivity. }
  split; [exact Hr|].
  eexists. split; [reflexivity|].
  destruct (close_once_guard _ 0%nat _ Hr eq_refl) as [Hf Ht].
  split; [reflexivity|]. split; [exact Hf|].
  assert (exists st', step (EvRelay 0 (CopyOnce C2S)) Ex.st_guard_fired = Some st')
    as [st' Hst] by (eexists; reflexivity).
  destruct (Ht (CopyOnce C2S) st' eq_refl Hst)
    as (s' & H1 & H2 & H3 & H4 & H5 & H6 & H7).
  exists st', s'. simpl in H7.
  split; [exact Hst|]. split; [exact H1|]. split; [exact H3|]. exact H7.
Defined.

(** ** The supervisory select of a session *)

(** C6. While [done] is open, a session that has dialed is still in its
    final select, whatever its two copy goroutines and its guard have done:
    its step out of the select is not enabled, and of the [wg] counter,
    which equals the number of live tracked goroutines, the session holds
    at least the slot of [setupRelay] itself. *)
Theorem supervisor_returns_only_on_shutdown (st : State) (i : nat) (s : Session) :
  reachable st -> panicked st = None -> sessions st !! i = Some s ->
  is_Some (cdc s) -> done st = false ->
  sup s = RSelect
  /\ step (EvRelay i ShutdownSeen) st = None
  /\ wg st = tasks st
  /\ relay_slot (sup s) = 1
  /\ 1 <= slots s <= wg st.
Proof.
  intros Hr Hp Hs [c Hc] Hd.
  destruct (reachable_inv _ Hr) as (Hok & Hwg & _).
  pose proof (Forall_lookup_1 _ _ _ _ Hok Hs) as Hsok.
  destruct (session_ok_dialed _ _ _ Hsok Hc) as (_ & _ & [Hsup|[_ Hdn]]);
    [|congruence].
  specialize (Hwg Hp). pose proof (tasks_lookup _ _ _ Hs) as Hle.
  repeat split; try done.
  - unfold step, setupRelay_step. rewrite Hs, Hsup, Hd. by destruct (alive st).
  - by rewrite Hsup.
  - unfold slots. rewrite Hsup. simpl.
    destruct (s2c s), (c2s s); simpl; lia.
  - lia.
Qed.

Lemma supervisor_returns_only_on_shutdown_witness :
  reachable Ex.st_splice_finished
  /\ done Ex.st_splice_finished = false
  /\ exists s,
       sessions Ex.st_splice_finished !! 0%nat = Some s
       /\ s2c s = CpReturned /\ c2s s = CpReturned /\ once s = true
       /\ sup s = RSelect
       /\ step (EvRelay 0 ShutdownSeen) Ex.st_splice_finished = None
       /\ 1 <= wg Ex.st_splice_finished.
Proof.
  assert (Hr : reachable Ex.st_splice_finished).
  { exists Ex.ssh_client, Ex.tcp_server, Ex.splice_finished. vm_compute. reflexivity. }
  split; [exact Hr|]. split; [reflexivity|].
  eexists. split; [reflexivity|].
  destruct (supervisor_returns_only_on_shutdown _ 0%nat _ Hr eq_refl eq_refl
              (ex_intro _ _ eq_refl) eq_refl) as (H1 & H2 & H3 & H4 & H5 & H6).
  do 3 (split; [reflexivity|]).
  split; [exact H1|]. split; [exact H2|].
  eapply Z.le_trans; [exact H5 | exact H6].
Defined.

(** ** A dial that fails *)

(** A [Connect] that runs its statements with no other call in between
    leaves the receiver and returns the result that [SshClient_Connect]
    computes. *)
Lemma Connect_alone env c :
  Connect_run (map (pair 0%nat) (Connect_script env)) (mkDialers c [DpStart] None)
  = Some (mkDialers (fst (SshClient_Connect env c))
            [DpReturned (snd (SshClient_Connect env c))] None).
Proof.
  unfold Connect_script, SshClient_Connect.
  destruct (ssh_Dial env); [|reflexivity].
  destruct (NewSession env); [|reflexivity].
  destruct (StdoutPipe env); [|reflexivity].
  destruct (StdinPipe env); reflexivity.
Qed.

(** A statement of one call writes the shared receiver and the position of
    that call only: the other calls stay where they are, and address and
    configuration are never written. *)
Lemma Connect_step_frame k ev d d' :
  Connect_step k ev d = Some d' ->
  (forall j, j <> k -> calls d' !! j = calls d !! j)
  /\ sc_addr (shared d') = sc_addr (shared d)
  /\ cfg (shared d') = cfg (shared d).
Proof.
  unfold Connect_step. intros H.
  destruct (crashed d); [discriminate H|].
  destruct (calls d !! k) as [pc|]; [|discriminate H].
  destruct pc, ev; try discriminate H;
    try destruct (sess (dc (shared d)));
    injection H as <-; simpl;
    (split; [intros j Hj; try reflexivity;
             apply list_lookup_insert_ne; congruence|split; reflexivity]).
Qed.





(** ** The accept loop *)

Lemma Server_Accept_error s env e :
  lnr_Accept env = Err e -> Server_Accept s env = AcceptReturns (Some e) None.
Proof.
  intros H. destruct s; simpl; unfold TcpServer_Accept, SshServer_Accept;
    by rewrite H.
Qed.

(** Once [doServer] has returned, no step is a step of [doServer], nothing
    is received from [TcpServer.Accept], and no connection goroutine is
    added. *)
Lemma returned_server_step ev st st' :
  srvpc st = SReturned -> step ev st = Some st' ->
  srvpc st' = SReturned
  /\ (is_server_ev ev = false /\ ev <> EvDisp (Recv FromServer))
  /\ length (conns st') = length (conns st).
Proof.
  intros Hsrv H. step_cases H; try pc_contra;
    repeat split; rewrite ?length_insert; try reflexivity; try discriminate;
    assumption.
Qed.

Lemma returned_server_run evs st st' :
  srvpc st = SReturned -> run evs st = Some st' ->
  srvpc st' = SReturned
  /\ Forall (fun ev => is_server_ev ev = false /\ ev <> EvDisp (Recv FromServer)) evs
  /\ length (conns st') = length (conns st).
Proof.
  revert st. induction evs as [|ev evs IH]; intros st Hsrv H; simplify_eq/=.
  - auto.
  - destruct (step ev st) as [st1|] eqn:Hst; [|done].
    destruct (returned_server_step _ _ _ Hsrv Hst) as (H1 & H2 & H3).
    destruct (IH _ H1 H) as (H4 & H5 & H6).
    repeat split; [done| |congruence]. by constructor.
Qed.

(** C7. When [lnr.Accept()] fails inside [Accept], that step makes
    [doServer] return and changes no session, no channel, no connection
    goroutine and not the dispatcher.  In whatever follows, [doServer]
    stays returned: no later step is a step of the accept loop (no
    [Listen], no [Accept], no select), nothing more is received from
    [TcpServer.Accept], and [SshServer.Accept] starts no further
    connection goroutine. *)
Theorem accept_error_ends_loop
    (st : State) (env : AcceptEnv) (e : error) (st' : State)
    (evs : list Event) (st'' : State) :
  reachable st -> lnr_Accept env = Err e ->
  step (EvServer (Accept env)) st = Some st' -> run evs st' = Some st'' ->
  srvpc st' = SReturned
  /\ sessions st' = sessions st /\ closed st' = closed st
  /\ conns st' = conns st /\ disppc st' = disppc st
  /\ srvpc st'' = SReturned
  /\ Forall (fun ev => is_server_ev ev = false /\ ev <> EvDisp (Recv FromServer)) evs
  /\ length (conns st'') = length (conns st).
Proof.
  intros Hr He H Hrun.
  destruct (reachable_inv _ Hr) as (_ & _ & Hl).
  step_inv H. unfold doServer_step in H. unfold lnr_ok in Hl.
  destruct (srvpc st) eqn:Hsrv; try discriminate H.
  destruct Hl as [l Hl]. rewrite Hl, (Server_Accept_error _ _ _ He) in H.
  simplify_eq.
  assert (srvpc (wg_Done (set_srvpc SReturned st)) = SReturned) as Hret.
  { prims. by repeat case_match. }
  destruct (returned_server_run _ _ _ Hret Hrun) as (H1 & H2 & H3).
  repeat split; try done.
  1-4: prims; by repeat case_match.
  rewrite H3. prims. by repeat case_match.
Qed.

Lemma accept_error_ends_loop_witness :
  reachable Ex.st_third_accept
  /\ length (sessions Ex.st_third_accept) = 2%nat
  /\ exists st' st'',
       step (EvServer (Accept Ex.accept_fails)) Ex.st_third_accept = Some st'
       /\ run [EvRelay 0 (Connect Ex.dial_ok); EvRelay 1 (Connect Ex.dial_ok);
               EvRelay 0 (CopyEnds C2S)] st' = Some st''
       /\ srvpc st' = SReturned
       /\ sessions st' = sessions Ex.st_third_accept
       /\ srvpc st'' = SReturned.
Proof.
  assert (Hr : reachable Ex.st_third_accept).
  { exists Ex.ssh_client, Ex.tcp_server, Ex.third_accept_fails. vm_compute. reflexivity. }
  split; [exact Hr|]. split; [reflexivity|].
  pose (st' := Ex.st_or (step (EvServer (Accept Ex.accept_fails)) Ex.st_third_accept)).
  pose (st'' := Ex.st_or (run [EvRelay 0 (Connect Ex.dial_ok);
                               EvRelay 1 (Connect Ex.dial_ok);
                               EvRelay 0 (CopyEnds C2S)] st')).
  assert (Hst : step (EvServer (Accept Ex.accept_fails)) Ex.st_third_accept = Some st')
    by (vm_compute; reflexivity).
  assert (Hrun : run [EvRelay 0 (Connect Ex.dial_ok); EvRelay 1 (Connect Ex.dial_ok);
                      EvRelay 0 (CopyEnds C2S)] st' = Some st'')
    by (vm_compute; reflexivity).
  destruct (accept_error_ends_loop Ex.st_third_accept Ex.accept_fails Ex.accept_error
              st' _ st'' Hr eq_refl Hst Hrun)
    as (H1 & H2 & _ & _ & _ & H3 & _).
  exists st', st''.
  split; [exact Hst|]. split; [exact Hrun|].
  split; [exact H1|]. split; [exact H2|]. exact H3.
Defined.

(** C8. What the accept loop does while [Listen] or [Accept] is in flight
    is the same with [done] open or closed, and so is the hand-over that
    completes the send of [TcpServer.Accept]; the signal step closes [done]
    and leaves [doServer] where it is; the select on [done] is enabled
    nowhere but after an [Accept] that returned nil; a step that brings
    [doServer] to that select is an [Accept] returning nil or the receive
    of its send; at the select, [doServer] returns when [done] is closed
    and starts the next [Accept] otherwise. *)
Theorem shutdown_checked_between_accepts :
  (forall st b env,
      step (EvServer (Accept env)) (set_done b st)
      = set_done b <$> step (EvServer (Accept env)) st)
  /\ (forall st b r,
        step (EvServer (Listen r)) (set_done b st)
        = set_done b <$> step (EvServer (Listen r)) st)
  /\ (forall st b,
        step (EvDisp (Recv FromServer)) (set_done b st)
        = set_done b <$> step (EvDisp (Recv FromServer)) st)
  /\ (forall st st',
        step (EvMain Signal) st = Some st' ->
        done st' = true /\ srvpc st' = srvpc st /\ server st' = server st)
  /\ (forall st, srvpc st <> SSelect -> step (EvServer Select) st = None)
  /\ (forall ev st st',
        step ev st = Some st' -> srvpc st <> SSelect -> srvpc st' = SSelect ->
        accept_succeeded ev st)
  /\ (forall st st',
        step (EvServer Select) st = Some st' ->
        srvpc st' = if done st then SReturned else SAccept)
  /\ (forall st,
        alive st = true -> srvpc st = SSelect ->
        is_Some (step (EvServer Select) st)).
Proof.
  repeat apply conj.
  - intros st b env. unfold step, doServer_step.
    change (alive (set_done b st)) with (alive st).
    destruct (alive st); [|done]. simpl.
    repeat case_match; simpl; try done; prims; simpl; by repeat case_match.
  - intros st b r. unfold step, doServer_step, Server_Listen.
    change (alive (set_done b st)) with (alive st).
    destruct (alive st); [|done]. simpl.
    repeat case_match; simplify_eq/=; try done; prims; simpl; by repeat case_match.
  - intros st b. unfold step, newServerChannel_step.
    change (alive (set_done b st)) with (alive st).
    destruct (alive st); [|done]. simpl.
    by repeat case_match.
  - intros st st' H. by step_cases H.
  - intros st Hne. unfold step, doServer_step.
    destruct (alive st); [|done]. by destruct (srvpc st).
  - intros ev st st' H Hne Hs. unfold accept_succeeded.
    step_cases H; try congruence; eauto.
  - intros st st' H. step_cases H; congruence.
  - intros st Hal Hs. unfold step, doServer_step. rewrite Hal, Hs. eauto.
Qed.

Lemma shutdown_checked_between_accepts_witness :
  srvpc Ex.st_sender_waits_before = SSend (AnyConn (net.TCPConn 8))
  /\ done Ex.st_sender_waits_before = false
  /\ exists st2 st3 st4,
       step (EvMain Signal) Ex.st_sender_waits_before = Some st2
       /\ done st2 = true /\ srvpc st2 = srvpc Ex.st_sender_waits_before
       /\ step (EvServer Select) st2 = None
       /\ step (EvDisp (Recv FromServer)) st2 = Some st3
       /\ accept_succeeded (EvDisp (Recv FromServer)) st2
       /\ step (EvServer Select) st3 = Some st4
       /\ srvpc st4 = SReturned.
Proof.
  split; [reflexivity|]. split; [reflexivity|].
  destruct shutdown_checked_between_accepts
    as (_ & _ & _ & Hsig & Hnot & Hacc & Hsel & _).
  pose (st2 := Ex.st_or (step (EvMain Signal) Ex.st_sender_waits_before)).
  pose (st3 := Ex.st_or (step (EvDisp (Recv FromServer)) st2)).
  pose (st4 := Ex.st_or (step (EvServer Select) st3)).
  assert (H2 : step (EvMain Signal) Ex.st_sender_waits_before = Some st2)
    by (vm_compute; reflexivity).
  assert (H3 : step (EvDisp (Recv FromServer)) st2 = Some st3)
    by (vm_compute; reflexivity).
  assert (H4 : step (EvServer Select) st3 = Some st4)
    by (vm_compute; reflexivity).
  destruct (Hsig _ _ H2) as (Hd & Hs & _).
  exists st2, st3, st4.
  split; [exact H2|]. split; [exact Hd|]. split; [exact Hs|].
  split; [apply Hnot; discriminate|].
  split; [exact H3|].
  split; [apply (Hacc _ _ _ H3); [discriminate | reflexivity]|].
  split; [exact H4|].
  exact (Hsel _ _ H4).
Defined.

(** ** The dispatcher *)






(** ** Errors before the relay starts *)

Ltac quiet_contra :=
  match goal with
  | Hc : conns ?st = [], H : conns ?st !! _ = Some _ |- _ =>
      rewrite Hc in H; discriminate H
  | Hs : sessions ?st = [], H : sessions ?st !! _ = Some _ |- _ =>
      rewrite Hs in H; discriminate H
  | Hd : _ = DSelect \/ _ = DReturned |- _ =>
      destruct Hd as [Hd|Hd]; (discriminate Hd || pc_contra)
  end.

(** Until [Listen] has returned there is no connection goroutine, no
    pending item of [dcs] and no session. *)
Lemma pre_listen_step ev st st' :
  step ev st = Some st' ->
  (srvpc st = SListen -> quiet st) -> srvpc st' = SListen -> quiet st'.
Proof.
  intros H HJ Hs'. unfold quiet in *.
  step_cases H; try discriminate Hs'; try pc_contra;
    destruct (HJ ltac:(assumption)) as (Hc & Hss & Hd);
    try quiet_contra; auto.
Qed.

Lemma pre_listen_run evs st st' :
  run evs st = Some st' ->
  (srvpc st = SListen -> quiet st) -> srvpc st' = SListen -> quiet st'.
Proof.
  revert st. induction evs as [|ev evs IH]; intros st H HJ; simplify_eq/=.
  - done.
  - destruct (step ev st) as [st1|] eqn:Hst; [|done].
    eauto using pre_listen_step.
Qed.

(** With [doServer] returned and nothing pending, nothing ever starts. *)
Lemma quiet_returned_step ev st st' :
  srvpc st = SReturned -> quiet st -> step ev st = Some st' ->
  srvpc st' = SReturned /\ quiet st'.
Proof.
  intros Hsrv (Hc & Hss & Hd) H. unfold quiet.
  step_cases H; try pc_contra; try quiet_contra; auto.
Qed.

Lemma quiet_returned_run evs st st' :
  srvpc st = SReturned -> quiet st -> run evs st = Some st' ->
  srvpc st' = SReturned /\ quiet st'.
Proof.
  revert st. induction evs as [|ev evs IH]; intros st Hsrv Hq H; simplify_eq/=.
  - done.
  - destruct (step ev st) as [st1|] eqn:Hst; [|done].
    destruct (quiet_returned_step _ _ _ Hsrv Hq Hst). eauto.
Qed.

Lemma initClient_bad_scheme u ca :
  url.Scheme u <> "tcp" -> url.Scheme u <> "ssh" ->
  initClient u ca = Err (Error "Invalid scheme").
Proof.
  intros H1 H2. unfold initClient.
  apply String.eqb_neq in H1, H2. by rewrite H1, H2.
Qed.

Lemma initServer_bad_scheme rf pk u hk :
  url.Scheme u <> "tcp" -> url.Scheme u <> "ssh" ->
  initServer rf pk u hk = Err (Error "Invalid scheme").
Proof.
  intros H1 H2. unfold initServer.
  apply String.eqb_neq in H1, H2. by rewrite H1, H2.
Qed.

Lemma initServer_key_unreadable rf pk u hk e :
  url.Scheme u = "ssh" -> rf hk = Err e -> initServer rf pk u hk = Err e.
Proof. intros H1 H2. unfold initServer. by rewrite H1, H2. Qed.

Lemma initServer_key_unparseable rf pk u hk pem e :
  url.Scheme u = "ssh" -> rf hk = Ok pem -> pk pem = Err e ->
  initServer rf pk u hk = Err e.
Proof. intros H1 H2 H3. unfold initServer. by rewrite H1, H2, H3. Qed.

Lemma main_setup_error up rf pk f :
  setup_error up rf pk f -> exists m, main up rf pk f = Panics m.
Proof.
  intros H. unfold main.
  destruct (String.eqb (listenURL f) "" || String.eqb (connectURL f) "") eqn:Hempty;
    [by eauto|].
  apply orb_false_elim in Hempty as [He1 He2].
  apply String.eqb_neq in He1, He2.
  destruct (up (listenURL f)) as [l|el] eqn:Hl; [|by eauto].
  destruct (up (connectURL f)) as [c|ec] eqn:Hc; [|by eauto].
  destruct (initClient c (caURL f)) as [cl|ecl] eqn:Hcl; [|by eauto].
  destruct (initServer rf pk l (hostKey f)) as [sv|esv] eqn:Hsv; [|by eauto].
  exfalso.
  destruct H as [H|H|e H|e H|u H H1 H2|u H H1 H2|u e H H1 H2|u pem e H H1 H2 H3];
    try congruence.
  - rewrite H in Hc. simplify_eq. by rewrite initClient_bad_scheme in Hcl.
  - rewrite H in Hl. simplify_eq. by rewrite initServer_bad_scheme in Hsv.
  - rewrite H in Hl. simplify_eq.
    by rewrite (initServer_key_unreadable _ _ _ _ _ H1 H2) in Hsv.
  - rewrite H in Hl. simplify_eq.
    by rewrite (initServer_key_unparseable _ _ _ _ _ _ H1 H2 H3) in Hsv.
Qed.

(** C3, as stated, fails for the listen bind failure.  With a well-formed
    configuration [main] starts the two goroutines; when [Listen] then
    fails, [doServer] returns and the process goes on: nothing panicked
    and [main] still waits for a signal. *)
Lemma listen_failure_is_not_fatal :
  main Ex.url_Parse Ex.ReadFile Ex.ParsePrivateKey Ex.flags
  = Ret (initial Ex.ssh_client Ex.tcp_server)
  /\ exists st,
       step (EvServer (Listen (Some Ex.bind_error)))
         (initial Ex.ssh_client Ex.tcp_server) = Some st
       /\ panicked st = None /\ alive st = true /\ mainpc st = MSignal
       /\ srvpc st = SReturned /\ disppc st = DSelect.
Proof.
  split; [vm_compute; reflexivity|].
  exists (Ex.st_or (step (EvServer (Listen (Some Ex.bind_error)))
                      (initial Ex.ssh_client Ex.tcp_server))).
  repeat apply conj; vm_compute; reflexivity.
Qed.

(** C3, amended.  A configuration error (a missing or unparsable listen or
    connect descriptor, an unknown scheme) and an unreadable or unparseable
    host key of an ssh listener make [main] panic before any goroutine is
    started.  A failure of [Listen] is not fatal to the process: it makes
    [doServer] return and release its slot of [wg], nothing panics and
    [main] stays where it is; from then on no session ever exists. *)
Theorem setup_errors :
  (forall url_Parse ReadFile ParsePrivateKey f,
      setup_error url_Parse ReadFile ParsePrivateKey f ->
      exists m, main url_Parse ReadFile ParsePrivateKey f = Panics m)
  /\ (forall c s evs1 st0 e st1 evs2 st2,
        run evs1 (initial c s) = Some st0 ->
        step (EvServer (Listen (Some e))) st0 = Some st1 ->
        run evs2 st1 = Some st2 ->
        panicked st1 = None /\ alive st1 = true /\ mainpc st1 = mainpc st0
        /\ srvpc st1 = SReturned /\ wg st1 = wg st0 - 1
        /\ srvpc st2 = SReturned /\ sessions st2 = []).
Proof.
  split; [apply main_setup_error|].
  intros c s evs1 st0 e st1 evs2 st2 Hrun0 H Hrun2.
  assert (reachable st0) as Hr by (by exists c, s, evs1).
  destruct (reachable_inv _ Hr) as (_ & Hwg & _).
  assert (srvpc st0 = SListen /\ alive st0 = true) as [Hs0 Hal].
  { clear Hrun2. step_inv H. unfold doServer_step in H.
    by destruct (srvpc st0). }
  pose proof (alive_panicked _ Hal) as Hp. specialize (Hwg Hp).
  assert (quiet st0) as Hq0.
  { eapply pre_listen_run; [exact Hrun0| |exact Hs0].
    intros _. unfold quiet. simpl. auto. }
  assert (1 <= wg st0) as Hone.
  { rewrite Hwg. unfold tasks. rewrite Hs0. simpl.
    destruct (disppc st0); pose proof (total_slots_nonneg (sessions st0));
      simpl; lia. }
  assert (st1 = set_wg (wg st0 - 1)
                  (set_srvpc SReturned (set_server (Server_set_lnr None (server st0)) st0)))
    as ->.
  { clear Hrun2. unfold step, doServer_step in H. rewrite Hal, Hs0 in H.
    simpl in H. unfold wg_Done, wg_Add in H. simpl in H.
    destruct (wg st0 + -1 <? 0)%Z eqn:Hlt; [lia|].
    simplify_eq. reflexivity. }
  destruct (quiet_returned_run evs2
              (set_wg (wg st0 - 1)
                 (set_srvpc SReturned
                    (set_server (Server_set_lnr None (server st0)) st0)))
              st2 eq_refl Hq0 Hrun2) as (H1 & _ & H2 & _).
  simpl. repeat split; assumption.
Qed.

Lemma setup_errors_witness :
  setup_error Ex.url_Parse Ex.ReadFile Ex.ParsePrivateKey Ex.flags_no_key
  /\ (exists m,
        main Ex.url_Parse Ex.ReadFile Ex.ParsePrivateKey Ex.flags_no_key = Panics m)
  /\ exists st1 st2,
       step (EvServer (Listen (Some Ex.bind_error)))
         (initial Ex.ssh_client Ex.tcp_server) = Some st1
       /\ run [EvMain Signal; EvDisp Done] st1 = Some st2
       /\ panicked st1 = None /\ alive st1 = true
       /\ srvpc st2 = SReturned /\ sessions st2 = [].
Proof.
  destruct setup_errors as [Ha Hb].
  assert (He : setup_error Ex.url_Parse Ex.ReadFile Ex.ParsePrivateKey Ex.flags_no_key).
  { apply (se_key_unreadable _ _ _ _ Ex.ssh_listen
             (Error "open: no such file or directory")); reflexivity. }
  split; [exact He|]. split; [exact (Ha _ _ _ _ He)|].
  pose (st1 := Ex.st_or (step (EvServer (Listen (Some Ex.bind_error)))
                           (initial Ex.ssh_client Ex.tcp_server))).
  pose (st2 := Ex.st_or (run [EvMain Signal; EvDisp Done] st1)).
  assert (H1 : step (EvServer (Listen (Some Ex.bind_error)))
                 (initial Ex.ssh_client Ex.tcp_server) = Some st1)
    by (vm_compute; reflexivity).
  assert (H2 : run [EvMain Signal; EvDisp Done] st1 = Some st2)
    by (vm_compute; reflexivity).
  destruct (Hb Ex.ssh_client Ex.tcp_server [] _ _ _ _ _ eq_refl H1 H2)
    as (Hp & Hal & _ & _ & _ & Hs & Hn).
  exists st1, st2.
  split; [exact H1|]. split; [exact H2|]. split; [exact Hp|].
  split; [exact Hal|]. split; [exact Hs|]. exact Hn.
Defined.

(** ** Further properties of the relay engine *)

Lemma run_preserves (P : State -> Prop) evs st st' :
  (forall ev st st', step ev st = Some st' -> P st -> P st') ->
  run evs st = Some st' -> P st -> P st'.
Proof.
  intros HP. revert st. induction evs as [|ev evs IH]; intros st H Hst; simplify_eq/=.
  - done.
  - destruct (step ev st) as [st1|] eqn:H1; [|done]. eauto.
Qed.

Lemma run_reachable evs st st' :
  reachable st -> run evs st = Some st' -> reachable st'.
Proof.
  intros Hr H. eapply (run_preserves reachable); [|exact H|exact Hr].
  intros ev s1 s2 H1 H2. eapply reachable_step; eassumption.
Qed.

Lemma copy_slot_nonneg pc : 0 <= copy_slot pc.
Proof. destruct pc; simpl; lia. Qed.

Lemma relay_slot_nonneg pc : 0 <= relay_slot pc.
Proof. destruct pc; simpl; lia. Qed.

(** A goroutine about to call [wg.Done()] holds a slot. *)
Lemma live_relay_slot st i s :
  sessions st !! i = Some s -> sup s <> RReturned -> 1 <= tasks st.
Proof.
  intros Hs Hsup. pose proof (tasks_lookup _ _ _ Hs) as Hle.
  unfold slots in Hle.
  pose proof (copy_slot_nonneg (s2c s)). pose proof (copy_slot_nonneg (c2s s)).
  destruct (sup s); simpl in *; try done; lia.
Qed.

Lemma live_copy_slot st i s d :
  sessions st !! i = Some s -> copypc d s = CpOnce -> 1 <= tasks st.
Proof.
  intros Hs Hd. pose proof (tasks_lookup _ _ _ Hs) as Hle.
  unfold slots in Hle.
  pose proof (copy_slot_nonneg (s2c s)). pose proof (copy_slot_nonneg (c2s s)).
  pose proof (relay_slot_nonneg (sup s)).
  destruct d; simpl in Hd; rewrite Hd in *; simpl in *; lia.
Qed.

Lemma tasks_nonneg st : 0 <= tasks st.
Proof.
  unfold tasks. pose proof (total_slots_nonneg (sessions st)).
  destruct (srvpc st), (disppc st); simpl; lia.
Qed.

Ltac panic_fin Hp :=
  simplify_eq/=; rewrite ?Hp in *; simplify_eq/=; auto.

(** X1. In every execution the [wg] counter equals the number of live
    tracked goroutines and is never negative, and no step makes
    [sync.WaitGroup] panic: a step of a reachable state either does not
    panic or panics with a nil dereference. *)
Theorem wg_never_negative (st : State) (ev : Event) (st' : State) :
  reachable st -> step ev st = Some st' ->
  wg st = tasks st /\ 0 <= wg st
  /\ (panicked st' = None \/ panicked st' = Some nil_deref).
Proof.
  intros Hr H.
  destruct (reachable_inv _ Hr) as (Hok & Hwg & Hl).
  specialize (Hwg (step_panicked _ _ _ H)).
  split; [exact Hwg|]. split; [rewrite Hwg; apply tasks_nonneg|].
  pose proof (step_panicked _ _ _ H) as Hp.
  assert (forall i s, sessions st !! i = Some s -> sup s <> RReturned -> 1 <= wg st)
    as Hrel by (intros; rewrite Hwg; eauto using live_relay_slot).
  assert (forall i s d, sessions st !! i = Some s -> copypc d s = CpOnce -> 1 <= wg st)
    as Hcp by (intros; rewrite Hwg; eauto using live_copy_slot).
  assert (srvpc st <> SReturned -> 1 <= wg st) as Hsrv.
  { intros. rewrite Hwg. unfold tasks.
    pose proof (total_slots_nonneg (sessions st)).
    destruct (srvpc st), (disppc st); simpl; try done; lia. }
  assert (disppc st <> DReturned -> 1 <= wg st) as Hdisp.
  { intros. rewrite Hwg. unfold tasks.
    pose proof (total_slots_nonneg (sessions st)).
    destruct (srvpc st), (disppc st); simpl; try done; lia. }
  clear Hwg Hok Hl Hr.
  step_inv H. destruct ev as [e|e|j e|e|i e].
  - unfold main_step, Server_Close in H.
    repeat (case_match; simplify_eq); prims; unfold DataChannel_Close;
      repeat case_match; panic_fin Hp.
  - unfold doServer_step, Server_Listen in H.
    repeat (case_match; simplify_eq); prims; repeat case_match; panic_fin Hp;
      exfalso;
      assert (1 <= wg st) by (apply Hsrv; first [discriminate | pcs; discriminate]);
      lia.
  - unfold conn_step in H.
    repeat (case_match; simplify_eq); panic_fin Hp.
  - unfold newServerChannel_step in H.
    repeat (case_match; simplify_eq); prims; repeat case_match; panic_fin Hp;
      exfalso;
      assert (1 <= wg st) by (apply Hdisp; first [discriminate | pcs; discriminate]);
      lia.
  - unfold setupRelay_step in H.
    destruct (sessions st !! i) as [s|] eqn:Hs; [|done].
    assert (Hi := lookup_lt_Some _ _ _ Hs).
    destruct e as [env|d|d|].
    + destruct (sup s) eqn:Hsup; simplify_eq.
      assert (1 <= wg st) by (eapply Hrel; [done|]; rewrite Hsup; discriminate).
      destruct (Client_Connect env (client st)) as [[c [cdc|e]]|m] eqn:HC.
      * prims. repeat case_match; panic_fin Hp; lia.
      * prims. unfold DataChannel_Close. repeat case_match; panic_fin Hp; lia.
      * destruct (client st) as [tc|sc]; simpl in HC.
        -- unfold TcpClient_Connect, net.RemoteAddr in HC.
           repeat case_match; simplify_eq/=; prims; rewrite Hp; simpl; auto.
        -- by destruct (SshClient_Connect (ssh_env env) sc).
    + destruct (copypc d s); simplify_eq. simpl. rewrite Hp. auto.
    + destruct (copypc d s) eqn:Hd; simplify_eq.
      assert (1 <= wg st) by eauto.
      rewrite once_Do_closer_upd by done.
      prims. unfold DataChannel_Close. repeat case_match; panic_fin Hp; lia.
    + destruct (sup s) eqn:Hsup; simplify_eq.
      destruct (done st) eqn:Hdn; simplify_eq.
      assert (1 <= wg st) by (eapply Hrel; [done|]; rewrite Hsup; discriminate).
      rewrite once_Do_closer_upd by done.
      prims. unfold DataChannel_Close. repeat case_match; panic_fin Hp; lia.
Qed.

Lemma wg_never_negative_witness :
  reachable Ex.st_one_session
  /\ exists st',
       step (EvRelay 0 (Connect Ex.dial_fails)) Ex.st_one_session = Some st'
       /\ wg Ex.st_one_session = 3 /\ tasks Ex.st_one_session = 3
       /\ (panicked st' = None \/ panicked st' = Some nil_deref).
Proof.
  assert (Hr : reachable Ex.st_one_session).
  { exists Ex.ssh_client, Ex.tcp_server, Ex.one_session. vm_compute. reflexivity. }
  split; [exact Hr|].
  pose (st' := Ex.st_or (step (EvRelay 0 (Connect Ex.dial_fails)) Ex.st_one_session)).
  assert (H : step (EvRelay 0 (Connect Ex.dial_fails)) Ex.st_one_session = Some st')
    by (vm_compute; reflexivity).
  destruct (wg_never_negative _ _ _ Hr H) as (H1 & _ & H3).
  exists st'. split; [exact H|]. split; [reflexivity|].
  split; [rewrite <- H1; reflexivity|]. exact H3.
Defined.

(** [done] is closed exactly when [main] has left the signal loop. *)
Lemma step_done_signalled ev st st' :
  step ev st = Some st' ->
  (done st = true <-> signalled (mainpc st) = true) ->
  (done st' = true <-> signalled (mainpc st') = true).
Proof.
  intros H. step_cases H; try pc_contra; pcs; simpl; intros Hiff;
    first [ exact Hiff
          | split; intros _; reflexivity
          | match goal with Hd : done _ = _ |- _ => rewrite Hd; exact Hiff end ].
Qed.

Lemma reachable_done_signalled st :
  reachable st -> (done st = true <-> signalled (mainpc st) = true).
Proof.
  intros (c & s & evs & H).
  eapply (run_preserves
            (fun st => done st = true <-> signalled (mainpc st) = true));
    [|exact H|].
  - intros ev s1 s2. apply step_done_signalled.
  - simpl. split; discriminate.
Qed.

Lemma total_slots_zero l :
  total_slots l = 0 -> Forall (fun s => slots s = 0) l.
Proof.
  induction l as [|s l IH]; simpl; intros H; constructor.
  - pose proof (slots_nonneg s). pose proof (total_slots_nonneg l). lia.
  - apply IH. pose proof (slots_nonneg s). pose proof (total_slots_nonneg l). lia.
Qed.

Lemma slots_zero_drained s : slots s = 0 -> drained s.
Proof.
  unfold slots, drained.
  pose proof (copy_slot_nonneg (s2c s)). pose proof (copy_slot_nonneg (c2s s)).
  destruct (sup s); simpl; intros; repeat split; try lia.
Qed.

(** X2. [wg.Wait()] returns, and [main] with it, only when the accept
    loop, the dispatcher and every goroutine of every session have
    returned. *)
Theorem main_exits_only_when_drained (st st' : State) :
  reachable st -> step (EvMain WaitReturns) st = Some st' ->
  mainpc st' = MExited /\ done st' = true
  /\ srvpc st = SReturned /\ disppc st = DReturned
  /\ Forall drained (sessions st)
  /\ sessions st' = sessions st.
Proof.
  intros Hr H.
  destruct (reachable_inv _ Hr) as (_ & Hwg & _).
  specialize (Hwg (step_panicked _ _ _ H)).
  assert (done st = true <-> signalled (mainpc st) = true) as Hsig.
  { apply reachable_done_signalled, Hr. }
  step_inv H. unfold main_step in H.
  destruct (mainpc st) eqn:Hpc; try discriminate H.
  destruct (wg st =? 0)%Z eqn:Hz; [|discriminate H].
  apply Z.eqb_eq in Hz. simplify_eq. simpl.
  rewrite Hz in Hwg. unfold tasks in Hwg.
  pose proof (total_slots_nonneg (sessions st)) as Hn.
  assert (srv_slot (srvpc st) = 0 /\ disp_slot (disppc st) = 0
          /\ total_slots (sessions st) = 0) as (H1 & H2 & H3).
  { destruct (srvpc st), (disppc st); simpl in *; lia. }
  repeat split.
  - by apply Hsig.
  - by destruct (srvpc st).
  - by destruct (disppc st).
  - eapply Forall_impl; [by apply total_slots_zero|].
    intros s. apply slots_zero_drained.
Qed.

Lemma main_exits_only_when_drained_witness :
  reachable Ex2.st_full_drain
  /\ exists st',
       step (EvMain WaitReturns) Ex2.st_full_drain = Some st'
       /\ length (sessions Ex2.st_full_drain) = 1%nat
       /\ mainpc st' = MExited
       /\ Forall drained (sessions Ex2.st_full_drain).
Proof.
  assert (Hr : reachable Ex2.st_full_drain).
  { exists Ex.ssh_client, Ex.tcp_server, Ex2.full_drain. vm_compute. reflexivity. }
  split; [exact Hr|].
  pose (st' := Ex.st_or (step (EvMain WaitReturns) Ex2.st_full_drain)).
  assert (H : step (EvMain WaitReturns) Ex2.st_full_drain = Some st')
    by (vm_compute; reflexivity).
  destruct (main_exits_only_when_drained _ _ Hr H) as (H1 & _ & _ & _ & H5 & _).
  exists st'. split; [exact H|]. split; [reflexivity|].
  split; [exact H1|]. exact H5.
Defined.

(** X3. The shutdown signal is set exactly when [main] has left its signal
    loop, and once set it stays set. *)
Theorem shutdown_signal_one_shot (st : State) (evs : list Event) (st' : State) :
  reachable st -> run evs st = Some st' ->
  (done st = true <-> signalled (mainpc st) = true)
  /\ (done st = true -> done st' = true)
  /\ (signalled (mainpc st) = true -> signalled (mainpc st') = true).
Proof.
  intros Hr H.
  pose proof (reachable_done_signalled _ Hr) as Hs.
  pose proof (reachable_done_signalled _ (run_reachable _ _ _ Hr H)) as Hs'.
  assert (done st = true -> done st' = true) as Hm.
  { eapply (run_preserves (fun s => done st = true -> done s = true));
      [|exact H|auto].
    intros ev s1 s2 H1 H2 H3. eapply step_done_mono; eauto. }
  split; [exact Hs|]. split; [exact Hm|].
  intros H1. apply Hs'. apply Hm. by apply Hs.
Qed.

Lemma shutdown_signal_one_shot_witness :
  reachable Ex.st_sender_waits
  /\ done Ex.st_sender_waits = true
  /\ exists st',
       run [EvDisp Done; EvRelay 0 (Connect Ex.dial_ok)] Ex.st_sender_waits = Some st'
       /\ done st' = true.
Proof.
  assert (Hr : reachable Ex.st_sender_waits).
  { exists Ex.ssh_client, Ex.tcp_server, Ex.sender_waits_at_shutdown.
    vm_compute. reflexivity. }
  split; [exact Hr|]. split; [reflexivity|].
  pose (st' := Ex.st_or (run [EvDisp Done; EvRelay 0 (Connect Ex.dial_ok)]
                           Ex.st_sender_waits)).
  assert (H : run [EvDisp Done; EvRelay 0 (Connect Ex.dial_ok)] Ex.st_sender_waits
              = Some st') by (vm_compute; reflexivity).
  destruct (shutdown_signal_one_shot _ _ _ Hr H) as (_ & Hm & _).
  exists st'. split; [exact H|]. exact (Hm eq_refl).
Defined.

(** After [main] has returned nothing has panicked and [wg] is zero. *)
Lemma step_exited ev st st' :
  step ev st = Some st' ->
  mainpc st' = MExited -> panicked st' = None /\ wg st' = 0.
Proof.
  intros H. pose proof (step_panicked _ _ _ H) as Hp.
  step_cases H; intros Hx; try pc_contra; try discriminate Hx;
    try (exfalso;
         match goal with
         | Ha : alive ?s = true, Hm : mainpc ?s = MExited |- _ =>
             unfold alive in Ha; rewrite Hm in Ha;
             destruct (panicked s); discriminate Ha
         end).
  split; [exact Hp|]. by apply Z.eqb_eq.
Qed.

Lemma reachable_exited st :
  reachable st -> mainpc st = MExited -> panicked st = None /\ wg st = 0.
Proof.
  intros (c & s & evs & H).
  eapply (run_preserves
            (fun st => mainpc st = MExited -> panicked st = None /\ wg st = 0));
    [|exact H|].
  - intros ev s1 s2 H1 _. by eapply step_exited.
  - simpl. discriminate.
Qed.

(** With the dispatcher returned, [doServer] stays in the send of
    [TcpServer.Accept]. *)
Lemma undelivered_step dc ev st st' :
  srvpc st = SSend dc -> disppc st = DReturned -> step ev st = Some st' ->
  srvpc st' = SSend dc /\ disppc st' = DReturned.
Proof.
  intros Hs Hd H. step_cases H; try pc_contra; split; assumption.
Qed.

(** X4. When the dispatcher has returned while [TcpServer.Accept] is
    blocked in its send on [dcs], nothing ever receives that send:
    [doServer] never returns, keeps its slot of [wg], and [main] never
    gets out of [wg.Wait()]. *)
Theorem undelivered_connection_blocks_exit
    (st : State) (dc : Any) (evs : list Event) (st' : State) :
  reachable st -> srvpc st = SSend dc -> disppc st = DReturned ->
  run evs st = Some st' ->
  srvpc st' = SSend dc /\ disppc st' = DReturned
  /\ mainpc st' <> MExited
  /\ step (EvMain WaitReturns) st' = None.
Proof.
  intros Hr Hs Hd H.
  assert (srvpc st' = SSend dc /\ disppc st' = DReturned) as [Hs' Hd'].
  { eapply (run_preserves
              (fun s => srvpc s = SSend dc /\ disppc s = DReturned));
      [|exact H|auto].
    intros ev s1 s2 H1 [H2 H3]. by eapply undelivered_step. }
  pose proof (run_reachable _ _ _ Hr H) as Hr'.
  destruct (reachable_inv _ Hr') as (_ & Hwg & _).
  assert (panicked st' = None -> 1 <= wg st') as Hone.
  { intros Hp. rewrite (Hwg Hp). unfold tasks. rewrite Hs', Hd'. simpl.
    pose proof (total_slots_nonneg (sessions st')). lia. }
  repeat split; try assumption.
  - intros Hx. destruct (reachable_exited _ Hr' Hx) as [Hp Hz].
    specialize (Hone Hp). lia.
  - unfold step. destruct (alive st') eqn:Hal; [|reflexivity].
    unfold main_step. destruct (mainpc st'); try reflexivity.
    specialize (Hone (alive_panicked _ Hal)).
    destruct (wg st' =? 0)%Z eqn:Hz; [|reflexivity].
    apply Z.eqb_eq in Hz. lia.
Qed.

Lemma undelivered_connection_blocks_exit_witness :
  reachable Ex2.st_undelivered
  /\ srvpc Ex2.st_undelivered = SSend (AnyConn (net.TCPConn 7))
  /\ disppc Ex2.st_undelivered = DReturned
  /\ exists st',
       run [EvMain ClientClose; EvMain ServerClose] Ex2.st_undelivered = Some st'
       /\ mainpc st' = MWait
       /\ step (EvMain WaitReturns) st' = None.
Proof.
  assert (Hr : reachable Ex2.st_undelivered).
  { exists Ex.ssh_client, Ex.tcp_server, Ex2.undelivered. vm_compute. reflexivity. }
  split; [exact Hr|]. split; [reflexivity|]. split; [reflexivity|].
  pose (st' := Ex.st_or (run [EvMain ClientClose; EvMain ServerClose]
                           Ex2.st_undelivered)).
  assert (H : run [EvMain ClientClose; EvMain ServerClose] Ex2.st_undelivered
              = Some st') by (vm_compute; reflexivity).
  destruct (undelivered_connection_blocks_exit _ _ _ _ Hr eq_refl eq_refl H)
    as (_ & _ & _ & Hw).
  exists st'. split; [exact H|]. split; [reflexivity|]. exact Hw.
Defined.

(** ** Closing the server and the client at shutdown *)

Lemma no_listener_step ev st st' :
  no_listener st -> step ev st = Some st' -> no_listener st'.
Proof.
  unfold no_listener. intros [Hl Hs] H.
  step_cases H; try pc_contra; rewrite ?Server_lnr_set;
    try (exfalso; apply Hs; assumption);
    split; try assumption; try discriminate; pcs; discriminate.
Qed.

(** X5. After a failed [Listen] the field [s.lnr] stays nil, so when the
    shutdown sequence of [main] comes to [server.Close()] the call goes
    through a nil interface and the process panics. *)
Theorem server_Close_after_failed_Listen_panics
    (st0 : State) (e : error) (st1 : State) (evs : list Event) (st2 : State) :
  step (EvServer (Listen (Some e))) st0 = Some st1 ->
  run evs st1 = Some st2 ->
  mainpc st2 = MServerClose -> alive st2 = true ->
  Server_lnr (server st2) = None
  /\ step (EvMain ServerClose) st2 = Some (set_panicked (Some nil_deref) st2).
Proof.
  intros H Hrun Hpc Hal.
  assert (no_listener st1) as Hn1.
  { unfold no_listener. step_cases H; rewrite ?Server_lnr_set;
      split; try reflexivity; discriminate. }
  assert (no_listener st2) as [Hl _].
  { eapply (run_preserves no_listener); [|exact Hrun|exact Hn1].
    intros ev s1 s2 H1 H2. by eapply no_listener_step. }
  split; [exact Hl|].
  unfold step, main_step, Server_Close. rewrite Hal, Hpc, Hl.
  unfold panic. by rewrite (alive_panicked _ Hal).
Qed.

Lemma server_Close_after_failed_Listen_panics_witness :
  exists st1 st2 st3,
    step (EvServer (Listen (Some Ex.bind_error)))
      (initial Ex.ssh_client Ex.tcp_server) = Some st1
    /\ run Ex2.listen_failed_shutdown st1 = Some st2
    /\ mainpc st2 = MServerClose /\ alive st2 = true
    /\ step (EvMain ServerClose) st2 = Some st3
    /\ panicked st3 = Some nil_deref.
Proof.
  pose (st1 := Ex.st_or (step (EvServer (Listen (Some Ex.bind_error)))
                           (initial Ex.ssh_client Ex.tcp_server))).
  pose (st2 := Ex.st_or (run Ex2.listen_failed_shutdown st1)).
  assert (H1 : step (EvServer (Listen (Some Ex.bind_error)))
                 (initial Ex.ssh_client Ex.tcp_server) = Some st1)
    by (vm_compute; reflexivity).
  assert (H2 : run Ex2.listen_failed_shutdown st1 = Some st2)
    by (vm_compute; reflexivity).
  destruct (server_Close_after_failed_Listen_panics _ _ _ _ _ H1 H2 eq_refl eq_refl)
    as [_ H3].
  exists st1, st2, (set_panicked (Some nil_deref) st2).
  split; [exact H1|]. split; [exact H2|]. split; [reflexivity|].
  split; [reflexivity|]. split; [exact H3|]. reflexivity.
Defined.

(** X6. [SshClient.Close] after [SshClient.Connect]: when [Connect]
    returned a channel, [Close] closes exactly that channel and a second
    [Close] closes nothing; when [Connect] failed before it had a session
    [Close] closes nothing; when [Connect] failed after [NewSession]
    succeeded, [Close] still closes that session although no channel was
    returned. *)
Theorem SshClient_Close_after_Connect (env : SshConnectEnv) (c : SshClient) :
  (forall d,
      snd (SshClient_Connect env c) = Ok d ->
      Client_Close (ClSsh (fst (SshClient_Connect env c)))
      = (ClSsh (set_est false (fst (SshClient_Connect env c))), Some d))
  /\ snd (Client_Close (fst (Client_Close (ClSsh (fst (SshClient_Connect env c))))))
     = None
  /\ (forall e,
        ssh_Dial env = Err e \/ (exists cc, ssh_Dial env = Ok cc /\ NewSession env = Err e) ->
        snd (SshClient_Connect env c) = Err e
        /\ snd (Client_Close (ClSsh (fst (SshClient_Connect env c)))) = None)
  /\ (forall cc n e,
        ssh_Dial env = Ok cc -> NewSession env = Ok n ->
        StdoutPipe env = Err e \/ (exists r, StdoutPipe env = Ok r /\ StdinPipe env = Err e) ->
        snd (SshClient_Connect env c) = Err e
        /\ exists d,
             snd (Client_Close (ClSsh (fst (SshClient_Connect env c))))
             = Some (DcSshClient d)
             /\ sess d = Some n).
Proof.
  unfold SshClient_Connect, Client_Close.
  destruct (ssh_Dial env) as [cc|e1], (NewSession env) as [n|e2],
    (StdoutPipe env) as [r|e3], (StdinPipe env) as [w|e4]; simpl;
    repeat split; intros; simplify_eq/=; try reflexivity;
    repeat match goal with
           | H : _ \/ _ |- _ => destruct H
           | H : exists _, _ |- _ => destruct H
           | H : _ /\ _ |- _ => destruct H
           end; simplify_eq/=; try reflexivity; eauto.
Qed.

Lemma SshClient_Close_after_Connect_witness :
  (exists d,
      snd (SshClient_Connect Ex.ssh_ok Ex2.fresh_ssh_client) = Ok d
      /\ snd (Client_Close (ClSsh (fst (SshClient_Connect Ex.ssh_ok Ex2.fresh_ssh_client))))
         = Some d)
  /\ snd (SshClient_Connect Ex2.ssh_pipe_fails Ex2.fresh_ssh_client)
     = Err (Error "ssh: Stdout already set")
  /\ exists d,
       snd (Client_Close (ClSsh (fst (SshClient_Connect Ex2.ssh_pipe_fails
                                        Ex2.fresh_ssh_client))))
       = Some (DcSshClient d)
       /\ sess d = Some 2%nat.
Proof.
  destruct (SshClient_Close_after_Connect Ex.ssh_ok Ex2.fresh_ssh_client)
    as (H1 & _).
  destruct (SshClient_Close_after_Connect Ex2.ssh_pipe_fails Ex2.fresh_ssh_client)
    as (_ & _ & _ & H4).
  split.
  - eexists. split; [reflexivity|].
    rewrite (H1 _ eq_refl). reflexivity.
  - destruct (H4 1%nat 2%nat (Error "ssh: Stdout already set") eq_refl eq_refl
                (or_introl eq_refl)) as [H5 H6].
    split; [exact H5|exact H6].
Defined.

(** X7. [TcpClient.Connect] never returns an error: it returns the dialed
    connection or panics.  So a session that dials through a TCP client
    never takes the error branch of [setupRelay]: its dial step closes no
    channel, and either panics or starts the splice. *)
Theorem TcpClient_Connect_never_returns_error
    (dial : result net.ConnImpl) (c : TcpClient) :
  (forall e, TcpClient_Connect dial c <> Ret (Err e))
  /\ (forall fd, dial = Ok (net.TCPConn fd) ->
                 TcpClient_Connect dial c = Ret (Ok (DcTCPConn (Some fd))))
  /\ (forall st i senv st',
        client st = ClTcp c ->
        step (EvRelay i (Connect (mkConnectEnv dial senv))) st = Some st' ->
        closed st' = closed st /\ client st' = ClTcp c
        /\ (is_Some (panicked st')
            \/ exists s', sessions st' !! i = Some s' /\ is_Some (cdc s')
                          /\ sup s' = RSelect)).
Proof.
  split; [|split].
  - intros e. unfold TcpClient_Connect.
    destruct dial as [[fd|fd]|e']; simpl; discriminate.
  - intros fd ->. reflexivity.
  - intros st i senv st' Hc H. step_inv H. unfold setupRelay_step in H.
    destruct (sessions st !! i) as [s|] eqn:Hs; [|discriminate H].
    assert (Hi := lookup_lt_Some _ _ _ Hs).
    destruct (sup s); try discriminate H.
    rewrite Hc in H. simpl in H. unfold TcpClient_Connect in H.
    destruct dial as [[fd|fd]|e']; simpl in H; simplify_eq;
      prims; repeat case_match; simpl; rewrite ?Hc;
      (split; [reflexivity|]); (split; [reflexivity|]);
      try (left; eauto; fail);
      right; rewrite list_lookup_insert_eq by done; eauto.
Qed.

Lemma TcpClient_Connect_never_returns_error_witness :
  exists st1 st',
    run Ex.one_session (initial Ex.tcp_client Ex.tcp_server) = Some st1
    /\ step (EvRelay 0 (Connect Ex.dial_ok)) st1 = Some st'
    /\ closed st' = closed st1
    /\ exists s', sessions st' !! 0%nat = Some s'
                  /\ cdc s' = Some (DcTCPConn (Some 9%nat)).
Proof.
  pose (st1 := Ex.st_or (run Ex.one_session (initial Ex.tcp_client Ex.tcp_server))).
  pose (st' := Ex.st_or (step (EvRelay 0 (Connect Ex.dial_ok)) st1)).
  assert (H1 : run Ex.one_session (initial Ex.tcp_client Ex.tcp_server) = Some st1)
    by (vm_compute; reflexivity).
  assert (H2 : step (EvRelay 0 (Connect (mkConnectEnv (Ok (net.TCPConn 9)) Ex.ssh_ok)))
                 st1 = Some st') by (vm_compute; reflexivity).
  destruct (TcpClient_Connect_never_returns_error (Ok (net.TCPConn 9))
              (mkTcpClient "10.0.0.2:80")) as (_ & _ & H3).
  destruct (H3 st1 0%nat Ex.ssh_ok st' eq_refl H2) as (H4 & _ & _).
  exists st1, st'. split; [exact H1|]. split; [exact H2|]. split; [exact H4|].
  eexists. split; reflexivity.
Defined.

(** ** Configuration *)

(** X8. What [initServer] returns when it succeeds: a server that is not
    listening yet, on the host of the descriptor; for the scheme ssh the
    host key file was read and parsed, the configuration holds exactly
    that key, and its password callback lets every user in with every
    password.  For the scheme tcp the host key file plays no role. *)
Theorem initServer_success
    (ReadFile : string -> result string) (ParsePrivateKey : string -> result nat)
    (u : url.URL) (hostkey : string) (s : Server) :
  initServer ReadFile ParsePrivateKey u hostkey = Ok s ->
  Server_lnr s = None
  /\ match s with
     | SvTcp t =>
         url.Scheme u = "tcp" /\ ts_addr t = url.Host u
         /\ forall rf pk hk, initServer rf pk u hk = Ok s
     | SvSsh t =>
         url.Scheme u = "ssh" /\ ss_addr t = url.Host u
         /\ (exists pem k,
                ReadFile hostkey = Ok pem /\ ParsePrivateKey pem = Ok k
                /\ ssh.hostKeys (ss_cfg t) = [k])
         /\ forall user pass, ssh.PasswordCallback (ss_cfg t) user pass = None
     end.
Proof.
  unfold initServer.
  destruct (String.eqb (url.Scheme u) "tcp") eqn:Ht.
  - intros H. simplify_eq. apply String.eqb_eq in Ht as Ht'. simpl.
    repeat split; try done; intros rf pk hk; by rewrite Ht.
  - destruct (String.eqb (url.Scheme u) "ssh") eqn:Hs; [|discriminate].
    apply String.eqb_eq in Hs.
    destruct (ReadFile hostkey) as [pem|e] eqn:Hr; [|discriminate].
    destruct (ParsePrivateKey pem) as [k|e] eqn:Hk; [|discriminate].
    intros H. simplify_eq. simpl. repeat split; eauto.
Qed.

Lemma initServer_success_witness :
  exists t,
    initServer Ex.ReadFile Ex.ParsePrivateKey Ex.ssh_listen "/etc/ssh2tcp/id_rsa"
    = Ok (SvSsh t)
    /\ ssh.hostKeys (ss_cfg t) = [1%nat]
    /\ forall user pass, ssh.PasswordCallback (ss_cfg t) user pass = None.
Proof.
  eexists. split; [reflexivity|].
  pose proof (initServer_success Ex.ReadFile Ex.ParsePrivateKey Ex.ssh_listen
                "/etc/ssh2tcp/id_rsa" _ eq_refl) as (_ & _ & _ & _ & H).
  split; [reflexivity|exact H].
Defined.

Lemma initClient_Err_scheme u ca e :
  initClient u ca = Err e -> url.Scheme u <> "tcp" /\ url.Scheme u <> "ssh".
Proof.
  unfold initClient.
  destruct (String.eqb (url.Scheme u) "tcp") eqn:Ht; [discriminate|].
  destruct (String.eqb (url.Scheme u) "ssh") eqn:Hs.
  - repeat case_match; discriminate.
  - intros _. split; by apply String.eqb_neq.
Qed.

(** X9. [main] panics only on a setup error; without one it starts the
    relay with the client and the server that [initClient] and
    [initServer] built: the counter at two for the accept loop and the
    dispatcher, [done] open, no session and no closed channel. *)
Theorem main_outcome
    (url_Parse : string -> result url.URL)
    (ReadFile : string -> result string) (ParsePrivateKey : string -> result nat)
    (f : Flags) :
  match main url_Parse ReadFile ParsePrivateKey f with
  | Panics _ => setup_error url_Parse ReadFile ParsePrivateKey f
  | Ret st =>
      ~ setup_error url_Parse ReadFile ParsePrivateKey f
      /\ exists l c,
           url_Parse (listenURL f) = Ok l /\ url_Parse (connectURL f) = Ok c
           /\ initClient c (caURL f) = Ok (client st)
           /\ initServer ReadFile ParsePrivateKey l (hostKey f) = Ok (server st)
           /\ st = initial (client st) (server st)
           /\ wg st = 2 /\ done st = false /\ sessions st = [] /\ closed st = []
  end.
Proof.
  destruct (main url_Parse ReadFile ParsePrivateKey f) as [st|m] eqn:Hm.
  - split.
    + intros He. destruct (main_setup_error _ _ _ _ He) as [m' Hm'].
      rewrite Hm in Hm'. discriminate Hm'.
    + unfold main in Hm.
      destruct (String.eqb (listenURL f) "" || String.eqb (connectURL f) "");
        [discriminate|].
      destruct (url_Parse (listenURL f)) as [l|] eqn:Hl; [|discriminate].
      destruct (url_Parse (connectURL f)) as [c|] eqn:Hc; [|discriminate].
      destruct (initClient c (caURL f)) as [cl|] eqn:Hcl; [|discriminate].
      destruct (initServer ReadFile ParsePrivateKey l (hostKey f)) as [sv|] eqn:Hsv;
        [|discriminate].
      simplify_eq. exists l, c. simpl. repeat split; try reflexivity; assumption.
  - unfold main in Hm.
    destruct (String.eqb (listenURL f) "") eqn:H1.
    { apply String.eqb_eq in H1. by apply se_no_listen. }
    destruct (String.eqb (connectURL f) "") eqn:H2.
    { apply String.eqb_eq in H2. by apply se_no_connect. }
    simpl in Hm.
    destruct (url_Parse (listenURL f)) as [l|e] eqn:Hl;
      [|by eapply se_listen_url].
    destruct (url_Parse (connectURL f)) as [c|e] eqn:Hc;
      [|by eapply se_connect_url].
    destruct (initClient c (caURL f)) as [cl|e] eqn:Hcl.
    2:{ destruct (initClient_Err_scheme _ _ _ Hcl).
        by eapply se_connect_scheme. }
    destruct (initServer ReadFile ParsePrivateKey l (hostKey f)) as [sv|e] eqn:Hsv;
      [discriminate|].
    unfold initServer in Hsv.
    destruct (String.eqb (url.Scheme l) "tcp") eqn:Ht; [discriminate|].
    destruct (String.eqb (url.Scheme l) "ssh") eqn:Hs.
    + apply String.eqb_eq in Hs.
      destruct (ReadFile (hostKey f)) as [pem|e1] eqn:Hr;
        [|by eapply se_key_unreadable].
      destruct (ParsePrivateKey pem) as [k|e2] eqn:Hk; [discriminate|].
      by eapply se_key_unparseable.
    + apply String.eqb_neq in Ht, Hs. by eapply se_listen_scheme.
Qed.

(** ** The life of a session *)

Lemma session_le_refl s : session_le s s.
Proof. unfold session_le. auto 10. Qed.

Lemma session_le_trans s1 s2 s3 :
  session_le s1 s2 -> session_le s2 s3 -> session_le s1 s3.
Proof.
  unfold session_le.
  intros (A1 & A2 & A3 & A4 & A5 & A6) (B1 & B2 & B3 & B4 & B5 & B6).
  repeat split; auto. congruence.
Qed.

Lemma session_step_le dn s s' :
  session_ok dn s -> session_step dn s s' -> session_le s s'.
Proof.
  unfold session_ok, session_le, once_mark.
  intros (_ & _ & Hc) Hst.
  destruct Hst as [s Hs|s c Hs Hcl|d s Hd|d s Hd|s Hs Hdn];
    destruct s as [sdc0 cdc0 sup0 s2c0 c2s0 once0 fired0];
    try destruct d; simpl in *; subst;
    destruct cdc0, once0; simpl;
    repeat split; intros; simplify_eq; try reflexivity; try assumption;
    intuition congruence.
Qed.

Lemma step_session_le ev st st' i s :
  inv st -> step ev st = Some st' -> sessions st !! i = Some s ->
  exists s', sessions st' !! i = Some s' /\ session_le s s'.
Proof.
  intros (Hok & _ & _) H Hs.
  destruct (step_sessions _ _ _ H) as [|d Hd|i0 s0 s0' Hs0 Hst].
  - exists s. split; [done|apply session_le_refl].
  - exists s. split; [|apply session_le_refl].
    rewrite lookup_app_l; [done|]. by eapply lookup_lt_Some.
  - destruct (decide (i = i0)) as [->|Hne].
    + rewrite Hs0 in Hs. simplify_eq.
      exists s0'. split.
      * apply list_lookup_insert_eq. by eapply lookup_lt_Some.
      * eapply session_step_le; [|done]. by eapply Forall_lookup_1.
    + exists s. split; [|apply session_le_refl].
      by rewrite list_lookup_insert_ne.
Qed.

(** X10. Sessions are never removed or reordered and their life only goes
    forward: at any later point of the execution the session is still at
    its index with the same inbound channel, an outbound channel once set
    is never replaced, a spent guard stays spent, and a returned
    [setupRelay] or copy goroutine stays returned. *)
Theorem session_life_goes_forward
    (st : State) (evs : list Event) (st' : State) (i : nat) (s : Session) :
  reachable st -> run evs st = Some st' -> sessions st !! i = Some s ->
  exists s', sessions st' !! i = Some s' /\ session_le s s'.
Proof.
  intros Hr H Hs. apply reachable_inv in Hr.
  revert st s Hr H Hs.
  induction evs as [|ev evs IH]; intros st s Hinv H Hs; simplify_eq/=.
  - exists s. split; [done|apply session_le_refl].
  - destruct (step ev st) as [st1|] eqn:H1; [|done].
    destruct (step_session_le _ _ _ _ _ Hinv H1 Hs) as (s1 & Hs1 & Hle1).
    destruct (IH st1 s1 (step_inv_preserved _ _ _ H1 Hinv) H Hs1)
      as (s' & Hs' & Hle').
    exists s'. split; [done|]. by eapply session_le_trans.
Qed.

Lemma session_life_goes_forward_witness :
  reachable Ex.st_guard_fired
  /\ exists s st' s',
       sessions Ex.st_guard_fired !! 0%nat = Some s
       /\ run [EvMain Signal; EvRelay 0 (CopyOnce C2S); EvRelay 0 ShutdownSeen]
            Ex.st_guard_fired = Some st'
       /\ sessions st' !! 0%nat = Some s'
       /\ sdc s' = DcTCPConn (Some 7%nat) /\ cdc s' = cdc s /\ once s' = true.
Proof.
  assert (Hr : reachable Ex.st_guard_fired).
  { exists Ex.ssh_client, Ex.tcp_server, Ex.guard_fired. vm_compute. reflexivity. }
  split; [exact Hr|].
  pose (st' := Ex.st_or (run [EvMain Signal; EvRelay 0 (CopyOnce C2S);
                              EvRelay 0 ShutdownSeen] Ex.st_guard_fired)).
  assert (H : run [EvMain Signal; EvRelay 0 (CopyOnce C2S); EvRelay 0 ShutdownSeen]
                Ex.st_guard_fired = Some st') by (vm_compute; reflexivity).
  destruct (session_life_goes_forward _ _ _ 0%nat _ Hr H eq_refl)
    as (s' & Hs' & H1 & H2 & H3 & _).
  eexists _, st', s'. split; [reflexivity|]. split; [exact H|].
  split; [exact Hs'|]. split; [exact H1|].
  split; [exact (H2 _ eq_refl)|]. exact (H3 eq_refl).
Defined.

Lemma main_outcome_witness :
  setup_error Ex2.url_Parse Ex.ReadFile Ex.ParsePrivateKey Ex2.flags_bad_scheme
  /\ ~ setup_error Ex.url_Parse Ex.ReadFile Ex.ParsePrivateKey Ex.flags.
Proof.
  split.
  - exact (main_outcome Ex2.url_Parse Ex.ReadFile Ex.ParsePrivateKey
             Ex2.flags_bad_scheme).
  - exact (proj1 (main_outcome Ex.url_Parse Ex.ReadFile Ex.ParsePrivateKey Ex.flags)).
Defined.

(** ** Teardown *)

Lemma session_closes_step dn s s' new :
  session_closes dn s s' new -> session_step dn s s'.
Proof. destruct 1; by constructor. Qed.

(** Every step changes the sessions and the log of closed channels in one
    of the listed ways. *)
Lemma step_closes ev st st' :
  step ev st = Some st' ->
  Forall (session_ok (done st)) (sessions st) ->
  relay_closes (done st) (sessions st) (closed st) (sessions st') (closed st').
Proof.
  intros H Hok. step_inv H.
  destruct ev as [e|e|j e|e|i e].
  - unfold main_step, Server_Close in H.
    repeat (case_match; simplify_eq); prims; repeat case_match; simpl;
      first [ apply (rc_other _ _ _ []) | apply (rc_other _ _ _ [_]) ].
  - unfold doServer_step, Server_Listen in H.
    repeat (case_match; simplify_eq); prims; repeat case_match; simpl;
      apply (rc_other _ _ _ []).
  - unfold conn_step in H.
    repeat (case_match; simplify_eq); simpl; apply (rc_other _ _ _ []).
  - unfold newServerChannel_step in H.
    repeat (case_match; simplify_eq); prims; repeat case_match; simpl;
      first [ apply (rc_other _ _ _ [])
            | apply rc_spawn; eauto using as_DataChannel_Close ].
  - unfold setupRelay_step in H.
    destruct (sessions st !! i) as [s|] eqn:Hs; [|done].
    assert (Hi := lookup_lt_Some _ _ _ Hs).
    pose proof (Forall_lookup_1 _ _ _ _ Hok Hs) as Hsok.
    destruct e as [env|d|d|].
    + destruct (sup s) eqn:Hsup; simplify_eq.
      destruct (session_ok_RConnect _ _ Hsok Hsup) as (Hcdc & _ & _).
      destruct Hsok as (_ & Hcl & _).
      destruct (Client_Connect env (client st)) as [[c [cdc|e]]|m] eqn:HC.
      * prims. repeat case_match; simpl;
          apply (rc_upd _ _ _ i s _ []); try done;
          apply sc_splice; eauto using Client_Connect_Ok_Close.
      * prims. rewrite Hcl. repeat case_match; simpl;
          apply (rc_upd _ _ _ i s _ [sdc s]); try done; by apply sc_fail.
      * prims. repeat case_match; simpl; apply (rc_other _ _ _ []).
    + destruct (copypc d s) eqn:Hd; simplify_eq. simpl.
      apply (rc_upd _ _ _ i s _ []); [done|]. by apply sc_copy_ends.
    + destruct (copypc d s) eqn:Hd; simplify_eq.
      destruct (cdc s) as [c|] eqn:Hcdc.
      2:{ destruct Hsok as (_ & _ & Hc). rewrite Hcdc in Hc.
          destruct Hc as (_ & H1 & H2 & _). destruct d; simpl in Hd; congruence. }
      destruct (session_ok_dialed _ _ _ Hsok Hcdc) as (Hcl & Hcc & _).
      rewrite once_Do_closer_upd by done.
      pose proof (sc_copy_once (done st) d s c Hd Hcdc) as Hsc.
      unfold once_mark in Hsc.
      destruct d; simpl in *;
        (destruct (once s) eqn:Ho; prims; simpl;
         rewrite ?Hcdc, ?Hcc, ?Hcl; rewrite ?Hcdc in Hsc;
         simpl; repeat case_match; simpl;
         first [ by eapply (rc_upd _ _ _ i s _ [])
               | by eapply (rc_upd _ _ _ i s _ [sdc s; c]) ]).
    + destruct (sup s) eqn:Hsup; simplify_eq.
      destruct (done st) eqn:Hdn; simplify_eq.
      destruct (cdc s) as [c|] eqn:Hcdc.
      2:{ destruct Hsok as (_ & _ & Hc). rewrite Hcdc in Hc.
          destruct Hc as (H1 & _). congruence. }
      destruct (session_ok_dialed _ _ _ Hsok Hcdc) as (Hcl & Hcc & _).
      rewrite once_Do_closer_upd by done.
      pose proof (sc_shutdown true s c Hsup eq_refl Hcdc) as Hsc.
      unfold once_mark in Hsc. simpl in Hsc |- *.
      destruct (once s) eqn:Ho; prims; simpl;
        rewrite ?Hcdc, ?Hcc, ?Hcl; rewrite ?Hcdc in Hsc;
        simpl; repeat case_match; simpl;
        first [ by eapply (rc_upd _ _ _ i s _ [])
              | by eapply (rc_upd _ _ _ i s _ [sdc s; c]) ].
Qed.

Lemma torn_down_mono cl new s :
  torn_down cl s -> torn_down (new ++ cl) s.
Proof.
  unfold torn_down. intros (H1 & H2 & H3 & H4 & H5).
  refine (conj (fun Ho => conj _ (fun c Hc => _))
            (conj (fun Hs Hc => _) (conj H3 (conj H4 H5))));
    apply elem_of_app; right;
    [exact (proj1 (H1 Ho)) | exact (proj2 (H1 Ho) _ Hc) | exact (H2 Hs Hc)].
Qed.

Ltac mem :=
  simpl; repeat (rewrite elem_of_cons || rewrite elem_of_app); auto 6.

Lemma session_closes_torn_down dn cl s s' new :
  session_ok dn s -> session_closes dn s s' new ->
  torn_down cl s -> torn_down (new ++ cl) s'.
Proof.
  intros Hok Hsc Htd. pose proof (torn_down_mono _ new _ Htd) as Hm.
  clear Htd. destruct Hok as (_ & _ & Hc).
  unfold torn_down, once_mark in *.
  destruct Hsc as [s Hs|s c Hs Hn Hcl|d s Hd|d s c Hd Hcdc|s c Hs Hdn Hcdc];
    destruct s as [sdc0 cdc0 sup0 s2c0 c2s0 once0 fired0];
    try destruct d; simpl in *; subst;
    destruct once0; simpl in *;
    destruct Hm as (H1 & H2 & H3 & H4 & H5);
    repeat split; intros; simplify_eq; try reflexivity; try discriminate;
    try (mem; fail);
    try destruct cdc0; simpl in *;
    repeat match goal with
           | H : ?a = ?a -> _ |- _ => specialize (H eq_refl)
           | H : _ /\ _ |- _ => destruct H
           | H : ?x <> ?x |- _ => destruct (H eq_refl)
           | H : is_Some None |- _ => destruct H; discriminate
           | H : Some _ = None |- _ => discriminate H
           | H : None = Some _ |- _ => discriminate H
           | H : false = true |- _ => discriminate H
           end;
    simplify_eq; eauto; mem.
Qed.

Lemma relay_closes_torn_down dn l cl l' cl' :
  relay_closes dn l cl l' cl' -> Forall (session_ok dn) l ->
  Forall (torn_down cl) l -> Forall (torn_down cl') l'.
Proof.
  destruct 1 as [new|d Hd|i s s' new Hs Hsc]; intros Hok Htd.
  - eapply Forall_impl; [exact Htd|]. intros s. apply torn_down_mono.
  - apply Forall_app. split; [done|].
    constructor; [|constructor].
    unfold torn_down. simpl. repeat split; intros; discriminate.
  - apply Forall_insert.
    + eapply Forall_impl; [exact Htd|]. intros s0. apply torn_down_mono.
    + eapply session_closes_torn_down; [|exact Hsc|].
      * by eapply Forall_lookup_1.
      * by eapply Forall_lookup_1.
Qed.

Lemma reachable_torn_down st :
  reachable st -> Forall (torn_down (closed st)) (sessions st).
Proof.
  intros (c & s & evs & H).
  assert (inv (initial c s) /\ Forall (torn_down (closed (initial c s)))
                                  (sessions (initial c s))) as H0.
  { split; [apply initial_inv|constructor]. }
  eapply (run_preserves
            (fun st => inv st /\ Forall (torn_down (closed st)) (sessions st)));
    [|exact H|exact H0].
  intros ev s1 s2 Hst [Hinv Htd]. split; [by eapply step_inv_preserved|].
  destruct Hinv as (Hok & _ & _).
  eapply relay_closes_torn_down; [by eapply step_closes|exact Hok|exact Htd].
Qed.

(** X11. No goroutine of a session returns leaving a channel open: in
    every state of every execution, when the guard of a session is spent,
    or its [setupRelay] or one of its copy goroutines has returned,
    [Close] has been called on its inbound channel and, if it dialed, on
    its outbound channel. *)
Theorem returned_session_is_closed (st : State) (i : nat) (s : Session) :
  reachable st -> sessions st !! i = Some s ->
  once s = true \/ sup s = RReturned \/ s2c s = CpReturned \/ c2s s = CpReturned ->
  sdc s ∈ closed st /\ forall c, cdc s = Some c -> c ∈ closed st.
Proof.
  intros Hr Hs Hcase.
  pose proof (Forall_lookup_1 _ _ _ _ (reachable_torn_down _ Hr) Hs)
    as (H1 & H2 & H3 & H4 & H5).
  assert (once s = true \/ (sup s = RReturned /\ cdc s = None)) as [Ho|[Hsup Hc]].
  { destruct Hcase as [Ho|[Hsup|[Hc|Hc]]]; auto.
    destruct (cdc s) eqn:Hcdc; [left; apply H3; eauto|right; auto]. }
  - by apply H1.
  - split; [by apply H2|]. intros c Hc'. congruence.
Qed.

Lemma returned_session_is_closed_witness :
  reachable Ex2.st_full_drain
  /\ exists s c,
       sessions Ex2.st_full_drain !! 0%nat = Some s
       /\ sup s = RReturned /\ cdc s = Some c
       /\ sdc s ∈ closed Ex2.st_full_drain /\ c ∈ closed Ex2.st_full_drain.
Proof.
  assert (Hr : reachable Ex2.st_full_drain).
  { exists Ex.ssh_client, Ex.tcp_server, Ex2.full_drain. vm_compute. reflexivity. }
  split; [exact Hr|].
  eexists _, _. split; [reflexivity|]. split; [reflexivity|]. split; [reflexivity|].
  destruct (returned_session_is_closed _ 0%nat _ Hr eq_refl
              (or_intror (or_introl eq_refl))) as [H1 H2].
  split; [exact H1|exact (H2 _ eq_refl)].
Defined.

(** ** From the queue to a session *)

(** X12. A session is created by the dispatcher's spawn step and by
    nothing else, one per received item that is a [DataChannel], with that
    item as its inbound channel; an item that is not a [DataChannel] is
    dropped.  A receive takes the item from its sender, which goes on, so
    no item is received twice. *)
Theorem one_session_per_item (ev : Event) (st st' : State) :
  step ev st = Some st' ->
  match ev with
  | EvDisp Spawn =>
      exists dc, disppc st = DGot dc /\ disppc st' = DSelect
        /\ sessions st' = (sessions st ++ match as_DataChannel dc with
                                          | Some d => [new_session d]
                                          | None => []
                                          end)%list
  | EvDisp (Recv FromServer) =>
      exists dc, srvpc st = SSend dc /\ disppc st' = DGot dc
        /\ srvpc st' = SSelect /\ sessions st' = sessions st
  | EvDisp (Recv (FromConn j)) =>
      exists dc, conns st !! j = Some (CSend dc) /\ disppc st' = DGot dc
        /\ conns st' !! j = Some CRange /\ sessions st' = sessions st
  | _ => length (sessions st') = length (sessions st)
  end.
Proof.
  intros H. step_cases H; rewrite ?length_insert, ?app_nil_r; try reflexivity;
    try pc_contra; eexists; repeat split; try eassumption; try reflexivity;
    try (apply list_lookup_insert_eq; eapply lookup_lt_Some; eassumption);
    match goal with
    | Hd : as_DataChannel _ = _ |- _ => rewrite Hd, ?app_nil_r; reflexivity
    end.
Qed.

Lemma one_session_per_item_witness :
  exists st1 st2,
    step (EvDisp (Recv FromServer)) Ex.st_sender_waits = Some st1
    /\ step (EvDisp Spawn) st1 = Some st2
    /\ srvpc st1 = SSelect
    /\ sessions st2
       = (sessions Ex.st_sender_waits ++ [new_session (DcTCPConn (Some 8%nat))])%list.
Proof.
  pose (st1 := Ex.st_or (step (EvDisp (Recv FromServer)) Ex.st_sender_waits)).
  pose (st2 := Ex.st_or (step (EvDisp Spawn) st1)).
  assert (H1 : step (EvDisp (Recv FromServer)) Ex.st_sender_waits = Some st1)
    by (vm_compute; reflexivity).
  assert (H2 : step (EvDisp Spawn) st1 = Some st2) by (vm_compute; reflexivity).
  destruct (one_session_per_item _ _ _ H1) as (dc1 & _ & _ & Hs1 & _).
  destruct (one_session_per_item _ _ _ H2) as (dc2 & Hd2 & _ & Hs2).
  exists st1, st2. split; [exact H1|]. split; [exact H2|]. split; [exact Hs1|].
  rewrite Hs2. vm_compute in Hd2. injection Hd2 as <-. reflexivity.
Defined.

Lemma is_ssh_server_set_lnr l s :
  is_ssh_server (Server_set_lnr l s) = is_ssh_server s.
Proof. by destruct s. Qed.

Lemma step_server_kind ev st st' :
  step ev st = Some st' ->
  is_ssh_server (server st') = is_ssh_server (server st).
Proof.
  intros H. step_cases H; rewrite ?is_ssh_server_set_lnr; reflexivity.
Qed.

Lemma step_ingest_ok ev st st' :
  step ev st = Some st' -> ingest_ok st -> ingest_ok st'.
Proof.
  intros H Hi. unfold ingest_ok in *.
  rewrite (step_server_kind _ _ _ H).
  destruct (is_ssh_server (server st)) eqn:Hk;
    step_cases H; try pc_contra; pcs; simpl; try assumption; try reflexivity;
    try discriminate;
    try (rewrite Hi in *; simplify_eq; fail);
    destruct (server st); simpl in *; try discriminate;
    unfold TcpServer_Accept, SshServer_Accept in *;
    repeat case_match; simplify_eq; try reflexivity;
    rewrite Hi; reflexivity.
Qed.

(** X13. The two backends feed the queue differently.  With the TCP server
    there is no connection goroutine: every item is sent by
    [TcpServer.Accept] itself, which waits for the dispatcher before it
    returns.  With the ssh server [doServer] is never blocked in a send:
    [SshServer.Accept] returns at once and the items are sent by the
    goroutines it started. *)
Theorem ingestion_by_backend
    (c : Client) (s : Server) (evs : list Event) (st : State) :
  run evs (initial c s) = Some st ->
  is_ssh_server (server st) = is_ssh_server s
  /\ if is_ssh_server s
     then sending (srvpc st) = false
          /\ step (EvDisp (Recv FromServer)) st = None
     else conns st = []
          /\ forall j e, step (EvConn j e) st = None
                         /\ step (EvDisp (Recv (FromConn j))) st = None.
Proof.
  intros H.
  assert (is_ssh_server (server st) = is_ssh_server s /\ ingest_ok st) as [Hk Hi].
  { eapply (run_preserves
              (fun st => is_ssh_server (server st) = is_ssh_server s
                         /\ ingest_ok st)); [|exact H|].
    - intros ev s1 s2 Hst [H1 H2].
      split; [|by eapply step_ingest_ok].
      by rewrite (step_server_kind _ _ _ Hst).
    - split; [reflexivity|]. unfold ingest_ok. simpl.
      by destruct (is_ssh_server s). }
  split; [exact Hk|]. unfold ingest_ok in Hi. rewrite Hk in Hi.
  destruct (is_ssh_server s).
  - split; [exact Hi|]. unfold step, newServerChannel_step.
    destruct (alive st); [|reflexivity].
    destruct (disppc st); try reflexivity.
    by destruct (srvpc st).
  - split; [exact Hi|]. intros j e.
    unfold step, conn_step, newServerChannel_step. rewrite Hi.
    destruct (alive st); [|by split].
    split; [reflexivity|]. by destruct (disppc st).
Qed.

Lemma ingestion_by_backend_witness :
  exists st,
    run Ex.sender_waits (initial Ex.ssh_client Ex.tcp_server) = Some st
    /\ srvpc st = SSend (AnyConn (net.TCPConn 8))
    /\ conns st = []
    /\ step (EvConn 0 ChansClosed) st = None.
Proof.
  pose (st := Ex.st_or (run Ex.sender_waits (initial Ex.ssh_client Ex.tcp_server))).
  assert (H : run Ex.sender_waits (initial Ex.ssh_client Ex.tcp_server) = Some st)
    by (vm_compute; reflexivity).
  destruct (ingestion_by_backend _ _ _ _ H) as [_ [H1 H2]].
  exists st. split; [exact H|]. split; [reflexivity|]. split; [exact H1|].
  exact (proj1 (H2 0%nat ChansClosed)).
Defined.
